(** * Genesis engine: genetic algorithm for prompt evolution

    A shallow embedding of [engines/genesis/genetic-algorithm.js] and the
    properties of its evolution loop, its fitness heuristic and its
    fail-soft genetic operators.

    Modelling conventions.
    - A JavaScript string is the list of its UTF-16 code units.
    - A JavaScript number is an exact rational ([Q]); rounding of IEEE
      doubles is not modelled.
    - The external text-generation service and [Math.random] are tapes
      supplied by the runtime; a computation threads the interaction log
      and the number of random draws, and may throw a [TypeError]. *)

From Stdlib Require Import QArith Qminmax Qabs Qround ZArith List Lia Lqa.
From Stdlib Require Import String Ascii Bool Sorted Permutation.
Import ListNotations.

(* ================================================================= *)
(** ** JavaScript strings *)

Module JSString.

Definition jsstring := list Z.

(** An ASCII literal as a sequence of code units. *)
Definition lit (s : string) : jsstring :=
  map (fun c => Z.of_N (N_of_ascii c)) (list_ascii_of_string s).

(** [result.length] *)
Definition length (s : jsstring) : Z := Z.of_nat (List.length s).

Fixpoint startsWith (s p : jsstring) : bool :=
  match p, s with
  | [], _ => true
  | _ :: _, [] => false
  | a :: p', b :: s' => (a =? b)%Z && startsWith s' p'
  end.

(** [s.includes(p)] *)
Fixpoint includes (s p : jsstring) : bool :=
  startsWith s p ||
  match s with
  | [] => false
  | _ :: s' => includes s' p
  end.

(** Canonicalisation of a code unit under the [i] flag (no [u] flag).
    A code unit outside ASCII never canonicalises to an ASCII one, so
    against the ASCII letters of the patterns below only the ASCII
    upper-casing matters. *)
Definition canonicalize (c : Z) : Z :=
  if ((97 <=? c) && (c <=? 122))%Z then (c - 32)%Z else c.

Fixpoint startsWithCI (s p : jsstring) : bool :=
  match p, s with
  | [], _ => true
  | _ :: _, [] => false
  | a :: p', b :: s' =>
      (canonicalize a =? canonicalize b)%Z && startsWithCI s' p'
  end.

(** The first alternative of [alts] that matches at the start of [s],
    as the number of code units it consumes. *)
Fixpoint matchAt (alts : list jsstring) (s : jsstring) : option nat :=
  match alts with
  | [] => None
  | p :: alts' =>
      if startsWithCI s p then Some (List.length p) else matchAt alts' s
  end.

(** [(s.match(/p1|p2|.../gi) || []).length] for non-empty literal
    alternatives: matches are taken left to right and do not overlap.
    [skip] counts the code units still covered by the last match. *)
Fixpoint matchCount (alts : list jsstring) (skip : nat) (s : jsstring) : nat :=
  match s with
  | [] => 0
  | _ :: s' =>
      match skip with
      | S k => matchCount alts k s'
      | O =>
          match matchAt alts s with
          | Some n => S (matchCount alts (Nat.pred n) s')
          | None => matchCount alts 0 s'
          end
      end
  end.

End JSString.
Import JSString.

(* ================================================================= *)
(** ** Rational helpers *)

Definition Qltb (x y : Q) : bool := negb (Qle_bool y x).


(* ================================================================= *)
(** ** The fitness heuristic *)

Module Fitness.

(** ['Begründung'], whose [ü] is the code unit 252. *)
Definition Begruendung : jsstring := lit "Begr" ++ [252%Z] ++ lit "ndung".

Definition codingPattern : list jsstring :=
  [lit "Kodierung"; lit "Code"; lit "Kategorie"].

Definition methodTerms : list jsstring :=
  [lit "induktiv"; lit "deduktiv"; lit "Ankerbeispiel";
   lit "Dimension"; lit "Eigenschaft"].

Definition idealLength : Q := 1500.

Section Score.

(** [String.prototype.toLowerCase], a built-in of the runtime. *)
Variable toLowerCase : jsstring -> jsstring.

Definition codingCount (result : jsstring) : nat :=
  matchCount codingPattern 0 result.

Definition methodScore (result : jsstring) : nat :=
  List.length
    (filter (fun t => includes (toLowerCase result) (toLowerCase t))
            methodTerms).

Definition hasStructure (result : jsstring) : bool :=
  includes result (lit "[") || includes result (lit "{").

Definition hasReasoning (result : jsstring) : bool :=
  includes result (lit "weil") || includes result (lit "da")
  || includes result Begruendung.

(** [Math.min(codingCount * 0.05, 0.2)] *)
Definition codingBonus (result : jsstring) : Q :=
  Qmin (inject_Z (Z.of_nat (codingCount result)) * 0.05) 0.2.

(** [methodScore * 0.08] *)
Definition methodBonus (result : jsstring) : Q :=
  inject_Z (Z.of_nat (methodScore result)) * 0.08.

Definition lengthRatio (result : jsstring) : Q :=
  Qabs (inject_Z (JSString.length result) - idealLength) / idealLength.

(** [Math.max(0, 0.2 - lengthRatio * 0.2)] *)
Definition lengthBonus (result : jsstring) : Q :=
  Qmax 0 (0.2 - lengthRatio result * 0.2).

(** The value of [fitness] just before the final [Math.min]. *)
Definition rawFitness (result : jsstring) : Q :=
  let fitness := 0 in
  let fitness := if hasStructure result then fitness + 0.2 else fitness in
  let fitness := fitness + codingBonus result in
  let fitness := if hasReasoning result then fitness + 0.2 else fitness in
  let fitness := fitness + methodBonus result in
  let fitness := fitness + lengthBonus result in
  fitness.

(** The [try] block of [calculatePromptFitness] from the response
    text on: [Math.min(fitness, 1)]. *)
Definition scoreResponse (result : jsstring) : Q :=
  Qmin (rawFitness result) 1.

End Score.

(** Lower-casing of the ASCII letters; [toLowerCase] agrees with it on
    every string of ASCII code units. *)
Definition asciiLower (s : jsstring) : jsstring :=
  map (fun c => if ((65 <=? c) && (c <=? 90))%Z then (c + 32)%Z else c) s.

End Fitness.
Import Fitness.

(* ================================================================= *)
(** ** The runtime: external service, randomness, exceptions *)

(** An object [{ prompt, fitness }].  [prompt] is [None] when the
    property is [undefined]. *)
Record Individual := mkIndividual {
  prompt : option jsstring;
  fitness : Q
}.

(** What a call of [anthropic.messages.create] asks for. *)
Inductive Request :=
| FitnessRequest (candidate : option jsstring)
| MutationRequest (original : option jsstring) (strength : Q) (operator : Z)
| CrossoverRequest (promptA promptB : option jsstring).

(** The collaborators of the engine.  [service k] is the outcome of the
    [k]-th call of the text-generation service: [Some text] when
    [response.content[0].text] is delivered, [None] when the awaited call
    throws.  [random k] is the [k]-th value of [Math.random()]. *)
Record Runtime := mkRuntime {
  toLowerCase : jsstring -> jsstring;
  service : nat -> option jsstring;
  random : nat -> Q
}.

(** The calls made so far with their outcomes, oldest first, and the
    number of random values drawn. *)
Record World := mkWorld {
  log : list (Request * option jsstring);
  draws : nat
}.

Definition startWorld : World := mkWorld [] 0.

Inductive Completion (A : Type) :=
| Returns (a : A) (w : World)
| Throws (w : World).
Arguments Returns {A} a w.
Arguments Throws {A} w.

Definition M (A : Type) := World -> Completion A.

Definition ret {A} (a : A) : M A := fun w => Returns a w.

Definition bind {A B} (m : M A) (k : A -> M B) : M B :=
  fun w => match m w with
           | Returns a w' => k a w'
           | Throws w' => Throws w'
           end.

(** Reading a property of [undefined]. *)
Definition throwTypeError {A} : M A := fun w => Throws w.

Declare Scope js_scope.
Delimit Scope js_scope with js.
Notation "x <- m ;; k" := (bind m (fun x => k))
  (at level 61, m at next level, right associativity) : js_scope.
Notation "' pat <- m ;; k" := (bind m (fun x => match x with pat => k end))
  (at level 61, pat pattern, m at next level, right associativity) : js_scope.
Open Scope js_scope.

Fixpoint mapM {A B} (f : A -> M B) (l : list A) : M (list B) :=
  match l with
  | [] => ret []
  | a :: l' => b <- f a ;; bs <- mapM f l' ;; ret (b :: bs)
  end.

(** [xs[i]] for an integral index: [None] is [undefined]. *)
Definition index {A} (xs : list A) (i : Z) : option A :=
  if (i <? 0)%Z then None else nth_error xs (Z.to_nat i).

(* ================================================================= *)
(** ** Sorting by fitness, highest first *)

(** [Array.prototype.sort] with the comparator [b.fitness - a.fitness]:
    a stable sort in descending order of fitness. *)
Fixpoint insertByFitness (x : Individual) (l : list Individual) : list Individual :=
  match l with
  | [] => [x]
  | y :: l' =>
      if Qltb (fitness x) (fitness y) then y :: insertByFitness x l'
      else x :: y :: l'
  end.

Fixpoint sortByFitness (l : list Individual) : list Individual :=
  match l with
  | [] => []
  | x :: l' => insertByFitness x (sortByFitness l')
  end.

(** The same on an array that may hold [undefined]: those go last and
    never reach the comparator. *)
Definition definedOf (l : list (option Individual)) : list Individual :=
  flat_map (fun o => match o with Some x => [x] | None => [] end) l.

Definition sortSparse (l : list (option Individual)) : list (option Individual) :=
  map Some (sortByFitness (definedOf l))
  ++ filter (fun o => match o with None => true | Some _ => false end) l.

(* ================================================================= *)
(** ** The engine *)

(** An entry of [improvements]. *)
Record GenerationRecord := mkRecord {
  generation : nat;
  recFitness : Q;
  improvement : Q
}.

(** The argument of [evolvePrompt], after its defaults are applied.
    [generations] and [populationSize] are natural numbers. *)
Record Config := mkConfig {
  basePrompt : jsstring;
  fitnessFunction : jsstring;
  generations : nat;
  populationSize : nat;
  mutationRate : Q;
  crossoverRate : Q
}.

Definition defaultConfig (base : jsstring) : Config :=
  mkConfig base (lit "quality") 10 20 0.1 0.7.

(** The second argument of [evolvePopulation]. *)
Record Breeding := mkBreeding {
  bMutationRate : Q;
  bCrossoverRate : Q;
  eliteCount : nat
}.

(** What [evolvePrompt] returns. *)
Record EvolutionResult := mkResult {
  best : option jsstring;
  bestFitness : Q;
  generationsRun : nat;
  improvements : list GenerationRecord
}.

(** The variables of the generation loop. *)
Record LoopState := mkLoop {
  population : list Individual;
  bestEver : Individual;
  improvementsLog : list GenerationRecord;
  gen : nat
}.

(** [{...undefined}]: an object without properties.  Its absent
    [fitness] is never read: every population is evaluated, which sets
    the property, before any fitness is looked at. *)
Definition emptyObject : Individual := mkIndividual None 0.

(** [{ ...x }] *)
Definition spread (x : option Individual) : Individual :=
  match x with
  | Some i => i
  | None => emptyObject
  end.

(** [x.prompt] *)
Definition promptOf (x : option Individual) : M (option jsstring) :=
  match x with
  | Some i => ret (prompt i)
  | None => throwTypeError
  end.

(** [improvements[improvements.length - 1]?.fitness || 0] *)
Definition lastFitnessOr0 (imps : list GenerationRecord) : Q :=
  match last (map Some imps) None with
  | Some r => if Qeq_bool (recFitness r) 0 then 0 else recFitness r
  | None => 0
  end.

(** Lines 36-43: tracking of the best solution. *)
Definition track (g : nat) (currentBest bestSoFar : Individual)
    (imps : list GenerationRecord) : Individual * list GenerationRecord :=
  if Qltb (fitness bestSoFar) (fitness currentBest) then
    (currentBest,
     imps ++ [mkRecord g (fitness currentBest)
                (fitness currentBest
                 - (if (0 <? g)%nat then lastFitnessOr0 imps else 0))])
  else (bestSoFar, imps).

Definition makeBreeding (c : Config) : Breeding :=
  mkBreeding (mutationRate c) (crossoverRate c)
    (Nat.max 2 (Z.to_nat (Qfloor (inject_Z (Z.of_nat (populationSize c)) * 0.1)))).

Section Engine.

Variable rt : Runtime.

(** [Math.random()] *)
Definition mathRandom : M Q :=
  fun w => Returns (random rt (draws w)) (mkWorld (log w) (S (draws w))).

(** [await anthropic.messages.create(...)] followed by
    [response.content[0].text], inside a [try]: [None] stands for the
    jump to the [catch] clause. *)
Definition messagesCreate (req : Request) : M (option jsstring) :=
  fun w =>
    let outcome := service rt (List.length (log w)) in
    Returns outcome (mkWorld (log w ++ [(req, outcome)]) (draws w)).

Definition calculatePromptFitness (p : option jsstring) (fitnessType : jsstring)
  : M Q :=
  response <- messagesCreate (FitnessRequest p) ;;
  match response with
  | Some result => ret (scoreResponse (toLowerCase rt) result)
  | None => ret 0
  end.

(** The catalogue [mutations] has seven entries. *)
Definition mutatePrompt (p : option jsstring) (mutationStrength : Q)
  : M (option jsstring) :=
  r <- mathRandom ;;
  let selectedMutation := Qfloor (r * 7) in
  response <- messagesCreate (MutationRequest p mutationStrength selectedMutation) ;;
  match response with
  | Some text => ret (Some text)
  | None => ret p
  end.

Definition crossoverPrompts (parent1 parent2 : option jsstring)
  : M (option jsstring) :=
  response <- messagesCreate (CrossoverRequest parent1 parent2) ;;
  match response with
  | Some text => ret (Some text)
  | None =>
      r <- mathRandom ;;
      ret (if Qltb 0.5 r then parent1 else parent2)
  end.

(** The loop of [initializePopulation], with [n] variants still to
    make. *)
Fixpoint initializeLoop (n : nat) (base : jsstring) (pop : list Individual)
  : M (list Individual) :=
  match n with
  | O => ret pop
  | S n' =>
      variant <- mutatePrompt (Some base) 0.3 ;;
      initializeLoop n' base (pop ++ [mkIndividual variant 0])
  end.

Definition initializePopulation (base : jsstring) (size : nat)
  : M (list Individual) :=
  initializeLoop (size - 1) base [mkIndividual (Some base) 0].

(** The calls of [Promise.all] are issued in the order of the
    population, and each result keeps the place of its individual. *)
Definition evaluateFitness (pop : list Individual) (fitnessFn : jsstring)
  : M (list Individual) :=
  evaluated <- mapM (fun individual =>
                 f <- calculatePromptFitness (prompt individual) fitnessFn ;;
                 ret (mkIndividual (prompt individual) f)) pop ;;
  ret (sortByFitness evaluated).

(** The loop of [tournamentSelect], with [n] draws still to make. *)
Fixpoint tournamentLoop (n : nat) (pop : list Individual)
    (tournament : list (option Individual)) : M (list (option Individual)) :=
  match n with
  | O => ret tournament
  | S n' =>
      r <- mathRandom ;;
      let idx := Qfloor (r * inject_Z (Z.of_nat (List.length pop))) in
      tournamentLoop n' pop (tournament ++ [index pop idx])
  end.

Definition tournamentSelect (pop : list Individual) (tournamentSize : nat)
  : M (option Individual) :=
  tournament <- tournamentLoop tournamentSize pop [] ;;
  ret (match hd_error (sortSparse tournament) with
       | Some x => x
       | None => None
       end).

(** The [while] loop of [evolvePopulation].  Every pass pushes one
    individual, so it runs [n = population.length - newPopulation.length]
    times. *)
Fixpoint offspringLoop (n : nat) (pop : list Individual) (b : Breeding)
    (newPopulation : list Individual) : M (list Individual) :=
  match n with
  | O => ret newPopulation
  | S n' =>
      parent1 <- tournamentSelect pop 3 ;;
      parent2 <- tournamentSelect pop 3 ;;
      r1 <- mathRandom ;;
      child <- (if Qltb r1 (bCrossoverRate b) then
                  p1 <- promptOf parent1 ;;
                  p2 <- promptOf parent2 ;;
                  crossoverPrompts p1 p2
                else promptOf parent1) ;;
      r2 <- mathRandom ;;
      child <- (if Qltb r2 (bMutationRate b) then mutatePrompt child 0.2
                else ret child) ;;
      offspringLoop n' pop b (newPopulation ++ [mkIndividual child 0])
  end.

Definition elite (pop : list Individual) (count : nat) : list Individual :=
  map (fun i => spread (nth_error pop i)) (seq 0 count).

Definition evolvePopulation (pop : list Individual) (b : Breeding)
  : M (list Individual) :=
  let newPopulation := elite pop (eliteCount b) in
  offspringLoop (List.length pop - List.length newPopulation) pop b newPopulation.

(** *** The generation loop of [evolvePrompt] *)

Variable config : Config.

(** Lines 31-46 of one pass: evaluate, track the best, test for
    convergence.  The flag tells whether the pass ends in [break]. *)
Definition evaluateAndTrack (st : LoopState) : M (LoopState * bool) :=
  pop <- evaluateFitness (population st) (fitnessFunction config) ;;
  currentBest <- (match hd_error pop with
                  | Some c => ret c
                  | None => throwTypeError
                  end) ;;
  let (best', imps') :=
    track (gen st) currentBest (bestEver st) (improvementsLog st) in
  ret (mkLoop pop best' imps' (gen st), Qle_bool 0.98 (fitness currentBest)).

(** Lines 48-53 and the increment of [gen]. *)
Definition reproduce (st : LoopState) : M LoopState :=
  pop <- evolvePopulation (population st) (makeBreeding config) ;;
  ret (mkLoop pop (bestEver st) (improvementsLog st) (S (gen st))).

Definition iteration (st : LoopState) : M (LoopState * bool) :=
  '(st1, stop) <- evaluateAndTrack st ;;
  if stop then ret (st1, true)
  else st2 <- reproduce st1 ;; ret (st2, false).

(** The [for] loop with [n = generations - gen] passes left. *)
Fixpoint generationLoop (n : nat) (st : LoopState) : M LoopState :=
  match n with
  | O => ret st
  | S n' =>
      '(st', stop) <- iteration st ;;
      if stop then ret st' else generationLoop n' st'
  end.

Definition initialState (pop : list Individual) : LoopState :=
  mkLoop pop (mkIndividual (Some (basePrompt config)) 0) [] 0.

Definition resultOf (st : LoopState) : EvolutionResult :=
  mkResult (prompt (bestEver st)) (fitness (bestEver st))
           (List.length (improvementsLog st)) (improvementsLog st).

(** The engine up to the end of its loop. *)
Definition runLoop : M LoopState :=
  pop <- initializePopulation (basePrompt config) (populationSize config) ;;
  generationLoop (generations config) (initialState pop).

Definition evolvePrompt : M EvolutionResult :=
  st <- runLoop ;;
  ret (resultOf st).

(** The state at the head of pass [g], when no earlier pass ended in
    [break]: [stateAt 0] is the state after the initialisation and
    [stateAt (g + 1)] the state after the reproduction step of pass [g].
    The bound [generations] is not looked at here. *)
Fixpoint stateAt (g : nat) : M (option LoopState) :=
  match g with
  | O =>
      pop <- initializePopulation (basePrompt config) (populationSize config) ;;
      ret (Some (initialState pop))
  | S g' =>
      prev <- stateAt g' ;;
      match prev with
      | None => ret None
      | Some st =>
          '(st', stop) <- iteration st ;;
          ret (if stop then None else Some st')
      end
  end.

(** A variant of the loop that leaves out [evolvePopulation] in its
    last pass. *)
Fixpoint generationLoopSkipLast (n : nat) (st : LoopState) : M LoopState :=
  match n with
  | O => ret st
  | S O => '(st', _) <- evaluateAndTrack st ;; ret st'
  | S n' =>
      '(st', stop) <- iteration st ;;
      if stop then ret st' else generationLoopSkipLast n' st'
  end.

Definition runLoopSkipLast : M LoopState :=
  pop <- initializePopulation (basePrompt config) (populationSize config) ;;
  generationLoopSkipLast (generations config) (initialState pop).

Definition evolvePromptSkipLast : M EvolutionResult :=
  st <- runLoopSkipLast ;;
  ret (resultOf st).

End Engine.


(* ================================================================= *)
(** ** Notions used to state the properties *)

(** The score that an outcome of the service call receives. *)
Definition fitnessOfOutcome (rt : Runtime) (o : option jsstring) : Q :=
  match o with
  | Some result => scoreResponse (toLowerCase rt) result
  | None => 0
  end.

(** [w'] continues [w]: the calls logged in [w] are an initial part of
    those logged in [w']. *)
Definition extends (w w' : World) : Prop :=
  exists l, log w' = log w ++ l.

(** [Math.random] promises a value in the half-open unit interval. *)
Definition validRandom (rt : Runtime) : Prop :=
  forall k, 0 <= random rt k /\ random rt k < 1.

(** An individual whose fitness was produced by a logged evaluation. *)
Definition scored (rt : Runtime) (w : World) (i : Individual) : Prop :=
  exists p o, In (FitnessRequest p, o) (log w)
              /\ fitness i = fitnessOfOutcome rt o.

Definition logMonotone {A} (m : M A) : Prop :=
  forall w a w', m w = Returns a w' -> extends w w'.

(** An array slot that is not [undefined]. *)
Definition isDefined (o : option Individual) : Prop :=
  exists i, o = Some i.

(** The order in which the entries of [improvements] follow each other. *)
Definition recordLt (a b : GenerationRecord) : Prop :=
  (generation a < generation b)%nat /\ recFitness a < recFitness b.

(** What holds of [bestEver] and [improvements] while the generations
    below [bound] have been tracked. *)
Record TrackInv (seed : Individual) (bound : nat) (be : Individual) (imps : list GenerationRecord)
  : Prop := {
  best_nonneg : 0 <= fitness be;
  best_seed : imps = [] -> be = seed;
  last_is_best : forall l r, imps = l ++ [r] ->
                             recFitness r = fitness be /\ 0 < recFitness r;
  gens_below : Forall (fun r => (generation r < bound)%nat) imps;
  fits_below : Forall (fun r => recFitness r <= fitness be) imps;
  fits_positive : Forall (fun r => 0 < recFitness r) imps;
  imps_sorted : StronglySorted recordLt imps;
  imps_length : (List.length imps <= bound)%nat;
  first_gain : forall r, hd_error imps = Some r -> improvement r == recFitness r
}.

(** The initial value of [bestEver]. *)
Definition seedOf (c : Config) : Individual :=
  mkIndividual (Some (basePrompt c)) 0.

(** The invariant of the loop.  At the head of a pass [bound] is [gen];
    between tracking and reproduction it is [gen + 1]. *)
Record LoopInv (cfg : Config) (bound : nat) (st : LoopState) : Prop := {
  inv_track : TrackInv (seedOf cfg) bound (bestEver st) (improvementsLog st);
  inv_nonempty : population st <> [];
  inv_size : (2 <= populationSize cfg)%nat ->
             List.length (population st) = populationSize cfg
}.

(** Every evaluation recorded in a log scored zero. *)
Definition allFitnessZero (rt : Runtime) (l : list (Request * option jsstring))
  : Prop :=
  forall p o, In (FitnessRequest p, o) l -> fitnessOfOutcome rt o == 0.

(** [currentBest.fitness] in pass [g], when the loop gets there. *)
Definition bestFitnessAt (rt : Runtime) (cfg : Config) (g : nat) : option Q :=
  match stateAt rt cfg g startWorld with
  | Returns (Some st) w =>
      match evaluateFitness rt (population st) (fitnessFunction cfg) w with
      | Returns pop _ => option_map fitness (hd_error pop)
      | Throws _ => None
      end
  | _ => None
  end.

(** The improvements log of a state is in order, and its last entry
    carries the fitness of [bestEver]. *)
Definition improvementsConsistent (st : LoopState) : Prop :=
  StronglySorted recordLt (improvementsLog st)
  /\ (improvementsLog st <> [] ->
      forall d, recFitness (last (improvementsLog st) d) = fitness (bestEver st)).

(** [GENESIS_CONFIG.fitnessMetrics]: the declared weight of each of the
    five metrics. *)
Record FitnessMetrics := mkMetrics {
  structureWeight : Q;
  codingsWeight : Q;
  reasoningWeight : Q;
  methodologyWeight : Q;
  lengthWeight : Q
}.

Definition fitnessMetrics : FitnessMetrics := mkMetrics 0.2 0.2 0.2 0.2 0.2.

(* ================================================================= *)
(** ** Sample runtimes and responses *)

(** A response that names all five methodological terms and nothing
    else of interest. *)
Definition allTermsText : jsstring :=
  lit "induktiv deduktiv Ankerbeispiel Dimension Eigenschaft".

(** A response that earns every bonus. *)
Definition fullText : jsstring :=
  lit "[Code Code Code Code weil induktiv deduktiv Ankerbeispiel Dimension Eigenschaft]".

(** A response with some structure, one coding and a justification. *)
Definition modestText : jsstring := lit "[weil Code".

(** Every call of the service fails. *)
Definition failingRuntime : Runtime :=
  mkRuntime asciiLower (fun _ => None) (fun _ => 1 # 2).

(** Every call of the service answers [modestText]. *)
Definition steadyRuntime : Runtime :=
  mkRuntime asciiLower (fun _ => Some modestText) (fun _ => 1 # 2).

(** Every call of the service answers [fullText]. *)
Definition perfectRuntime : Runtime :=
  mkRuntime asciiLower (fun _ => Some fullText) (fun _ => 1 # 2).

(** The first three calls answer [modestText], the later ones
    [fullText]. *)
Definition risingRuntime : Runtime :=
  mkRuntime asciiLower
    (fun k => if (k <? 3)%nat then Some modestText else Some fullText)
    (fun _ => 1 # 2).

Definition sampleConfig (gens size : nat) : Config :=
  mkConfig (lit "Analysiere den Text") (lit "quality") gens size 0.1 0.7.

(* ================================================================= *)
(** ** Further notions: evaluation passes *)

(** A population in the order that [evaluateFitness] establishes:
    every member scores at least as high as the members after it. *)
Definition descending (l : list Individual) : Prop :=
  StronglySorted (fun a b => fitness b <= fitness a) l.

(** The population of [evaluateFitness] before it is sorted: the call
    issued for an individual is the [k]-th of the run, counted from the
    first member on, and its score becomes the fitness. *)
Fixpoint scoredPopulation (rt : Runtime) (k : nat) (pop : list Individual)
  : list Individual :=
  match pop with
  | [] => []
  | i :: pop' =>
      mkIndividual (prompt i) (fitnessOfOutcome rt (service rt k))
      :: scoredPopulation rt (S k) pop'
  end.

(** The log entries that the evaluation of a population adds. *)
Fixpoint fitnessCalls (rt : Runtime) (k : nat) (pop : list Individual)
  : list (Request * option jsstring) :=
  match pop with
  | [] => []
  | i :: pop' =>
      (FitnessRequest (prompt i), service rt k) :: fitnessCalls rt (S k) pop'
  end.


(* ================================================================= *)
(** ** Further notions: selection and seeding *)

(** The individual that the [k]-th draw of a tournament picks, when
    [d] random values were drawn before the tournament. *)
Definition drawn (rt : Runtime) (pop : list Individual) (d k : nat)
  : option Individual :=
  index pop (Qfloor (random rt (d + k) * inject_Z (Z.of_nat (List.length pop)))).

(** The variants that [initializePopulation] makes of the base prompt
    with [n] calls, the first of which is the [k]-th call of the run: the
    response text, or the base prompt when the call fails. *)
Fixpoint seedVariants (rt : Runtime) (base : jsstring) (k n : nat)
  : list Individual :=
  match n with
  | O => []
  | S n' =>
      mkIndividual (match service rt k with
                    | Some text => Some text
                    | None => Some base
                    end) 0
      :: seedVariants rt base (S k) n'
  end.

(** The log entries of these calls; [d] random values were drawn
    before. *)
Fixpoint seedCalls (rt : Runtime) (base : jsstring) (k d n : nat)
  : list (Request * option jsstring) :=
  match n with
  | O => []
  | S n' =>
      (MutationRequest (Some base) 0.3 (Qfloor (random rt d * 7)), service rt k)
      :: seedCalls rt base (S k) (S d) n'
  end.

(* ================================================================= *)
(** ** Further notions: where a prompt comes from *)

(** A request of one of the two genetic operators. *)
Definition geneticRequest (req : Request) : Prop :=
  match req with
  | FitnessRequest _ => False
  | MutationRequest _ _ _ => True
  | CrossoverRequest _ _ => True
  end.

(** A prompt that a logged mutation or crossover call returned. *)
Definition answered (l : list (Request * option jsstring))
    (p : option jsstring) : Prop :=
  exists req text, In (req, Some text) l /\ geneticRequest req /\ p = Some text.

(** A prompt that is the base prompt or was returned by a logged
    mutation or crossover call. *)
Definition known (base : jsstring) (l : list (Request * option jsstring))
    (p : option jsstring) : Prop :=
  p = Some base \/ answered l p.

(** Every prompt of the population and the prompt of [bestEver] are
    known in the world. *)
Definition promptsKnown (cfg : Config) (st : LoopState) (w : World) : Prop :=
  Forall (known (basePrompt cfg) (log w)) (map prompt (population st))
  /\ known (basePrompt cfg) (log w) (prompt (bestEver st)).

(* ================================================================= *)
(** ** The way to the engine: authentication, feature gate, route

    [auth/supabase-jwt-validator.js] and the route
    [POST /api/genesis/evolve] of [api/routes.js]. *)




























(* ================================================================= *)
(** ** Facts about rational comparison *)

Lemma Qltb_true (x y : Q) : Qltb x y = true <-> x < y.
Proof.
  unfold Qltb. rewrite negb_true_iff.
  destruct (Qle_bool y x) eqn:E.
  - apply Qle_bool_iff in E. split; [discriminate | intro H; lra].
  - split; [intros _ | reflexivity].
    apply Qnot_le_lt. intro H. apply Qle_bool_iff in H. congruence.
Qed.

Lemma Qltb_false (x y : Q) : Qltb x y = false <-> y <= x.
Proof.
  unfold Qltb. rewrite negb_false_iff. apply Qle_bool_iff.
Qed.

(* ================================================================= *)
(** ** Facts about the fitness heuristic *)

Section ScoreFacts.

Variable lower : jsstring -> jsstring.

Lemma inject_nat_nonneg (n : nat) : 0 <= inject_Z (Z.of_nat n).
Proof.
  change 0 with (inject_Z 0). rewrite <- Zle_Qle. lia.
Qed.

Lemma codingBonus_range (result : jsstring) :
  0 <= codingBonus result <= 0.2.
Proof.
  unfold codingBonus. split.
  - apply Q.min_glb; [| lra].
    apply Qmult_le_0_compat; [apply inject_nat_nonneg | lra].
  - apply Q.le_min_r.
Qed.

Lemma methodBonus_nonneg (result : jsstring) : 0 <= methodBonus lower result.
Proof.
  unfold methodBonus.
  apply Qmult_le_0_compat; [apply inject_nat_nonneg | lra].
Qed.

Lemma lengthBonus_nonneg (result : jsstring) : 0 <= lengthBonus result.
Proof.
  unfold lengthBonus. apply Q.le_max_l.
Qed.

Lemma rawFitness_nonneg (result : jsstring) : 0 <= rawFitness lower result.
Proof.
  unfold rawFitness.
  pose proof (codingBonus_range result) as [Hc _].
  pose proof (methodBonus_nonneg result) as Hm.
  pose proof (lengthBonus_nonneg result) as Hl.
  destruct (hasStructure result), (hasReasoning result); lra.
Qed.

Lemma scoreResponse_range (result : jsstring) :
  0 <= scoreResponse lower result <= 1.
Proof.
  unfold scoreResponse. split.
  - apply Q.min_glb; [apply rawFitness_nonneg | lra].
  - apply Q.le_min_r.
Qed.

End ScoreFacts.


Lemma fitnessOfOutcome_range (rt : Runtime) (o : option jsstring) :
  0 <= fitnessOfOutcome rt o <= 1.
Proof.
  destruct o as [result |]; simpl.
  - apply scoreResponse_range.
  - lra.
Qed.

(* ================================================================= *)
(** ** Facts about sorting *)

Lemma insertByFitness_length (x : Individual) (l : list Individual) :
  List.length (insertByFitness x l) = S (List.length l).
Proof.
  induction l as [| y l IH]; simpl; [reflexivity |].
  destruct (Qltb (fitness x) (fitness y)); simpl; [rewrite IH |]; reflexivity.
Qed.

Lemma sortByFitness_length (l : list Individual) :
  List.length (sortByFitness l) = List.length l.
Proof.
  induction l as [| x l IH]; simpl; [reflexivity |].
  rewrite insertByFitness_length, IH. reflexivity.
Qed.

Lemma insertByFitness_Forall (P : Individual -> Prop) x l :
  P x -> Forall P l -> Forall P (insertByFitness x l).
Proof.
  intros Hx Hl. induction Hl as [| y l Hy Hl IH]; simpl.
  - constructor; [exact Hx | constructor].
  - destruct (Qltb (fitness x) (fitness y)).
    + constructor; assumption.
    + constructor; [exact Hx | constructor; assumption].
Qed.

Lemma sortByFitness_Forall (P : Individual -> Prop) l :
  Forall P l -> Forall P (sortByFitness l).
Proof.
  induction 1 as [| x l Hx Hl IH]; simpl; [constructor |].
  apply insertByFitness_Forall; assumption.
Qed.

Lemma sortByFitness_nonempty (l : list Individual) :
  l <> [] -> exists x, hd_error (sortByFitness l) = Some x.
Proof.
  intro H. destruct (sortByFitness l) as [| x s] eqn:E.
  - apply (f_equal (@List.length _)) in E.
    rewrite sortByFitness_length in E. destruct l; [congruence | discriminate].
  - exists x. reflexivity.
Qed.

(* ================================================================= *)
(** ** Facts about the runtime *)


Lemma extends_refl (w : World) : extends w w.
Proof. exists []. symmetry. apply app_nil_r. Qed.

Lemma extends_trans (w1 w2 w3 : World) :
  extends w1 w2 -> extends w2 w3 -> extends w1 w3.
Proof.
  intros [l1 H1] [l2 H2]. exists (l1 ++ l2).
  rewrite H2, H1, app_assoc. reflexivity.
Qed.

Lemma extends_In (w w' : World) e :
  extends w w' -> In e (log w) -> In e (log w').
Proof.
  intros [l H] Hin. rewrite H. apply in_or_app. left. exact Hin.
Qed.

Lemma bind_Returns {A B} (m : M A) (k : A -> M B) w b w' :
  bind m k w = Returns b w' ->
  exists a w1, m w = Returns a w1 /\ k a w1 = Returns b w'.
Proof.
  unfold bind. destruct (m w) as [a w1 | w1]; [| discriminate].
  intro H. exists a, w1. split; [reflexivity | exact H].
Qed.

Lemma bind_step {A B} (m : M A) (k : A -> M B) w a w1 :
  m w = Returns a w1 -> bind m k w = k a w1.
Proof.
  unfold bind. intros ->. reflexivity.
Qed.

(** Splits a run of [x <- m ;; k] that returned into its two parts. *)
Ltac bind_inv H :=
  let a := fresh "a" in
  let w := fresh "w" in
  let H1 := fresh "Hrun" in
  apply bind_Returns in H as (a & w & H1 & H).


Section OperatorFacts.

Variable rt : Runtime.

Lemma calculatePromptFitness_eq p t w :
  calculatePromptFitness rt p t w =
  let o := service rt (List.length (log w)) in
  Returns (fitnessOfOutcome rt o)
          (mkWorld (log w ++ [(FitnessRequest p, o)]) (draws w)).
Proof.
  unfold calculatePromptFitness, bind, messagesCreate. simpl.
  destruct (service rt (List.length (log w))); reflexivity.
Qed.

Lemma mutatePrompt_eq p s w :
  mutatePrompt rt p s w =
  let o := service rt (List.length (log w)) in
  Returns (match o with Some text => Some text | None => p end)
          (mkWorld (log w ++ [(MutationRequest p s
                                 (Qfloor (random rt (draws w) * 7)), o)])
                   (S (draws w))).
Proof.
  unfold mutatePrompt, bind, messagesCreate, mathRandom. simpl.
  destruct (service rt (List.length (log w))); reflexivity.
Qed.

Lemma crossoverPrompts_eq a b w :
  crossoverPrompts rt a b w =
  let o := service rt (List.length (log w)) in
  let w1 := log w ++ [(CrossoverRequest a b, o)] in
  match o with
  | Some text => Returns (Some text) (mkWorld w1 (draws w))
  | None => Returns (if Qltb 0.5 (random rt (draws w)) then a else b)
                    (mkWorld w1 (S (draws w)))
  end.
Proof.
  unfold crossoverPrompts, bind, messagesCreate, mathRandom. simpl.
  destruct (service rt (List.length (log w))); reflexivity.
Qed.

Lemma mutatePrompt_spec p s w :
  exists v w', mutatePrompt rt p s w = Returns v w' /\ extends w w'.
Proof.
  rewrite mutatePrompt_eq. simpl. eexists _, _. split; [reflexivity |].
  eexists. reflexivity.
Qed.

Lemma crossoverPrompts_spec a b w :
  exists v w', crossoverPrompts rt a b w = Returns v w' /\ extends w w'.
Proof.
  rewrite crossoverPrompts_eq. simpl.
  destruct (service rt (List.length (log w)));
    eexists _, _; (split; [reflexivity | eexists; reflexivity]).
Qed.


Lemma scored_extends w w' i : extends w w' -> scored rt w i -> scored rt w' i.
Proof.
  intros He (p & o & Hin & Hf). exists p, o.
  split; [eapply extends_In; eassumption | exact Hf].
Qed.

Lemma evaluate_each_spec (t : jsstring) (pop : list Individual) : forall w,
  exists ev w',
    mapM (fun individual =>
            f <- calculatePromptFitness rt (prompt individual) t ;;
            ret (mkIndividual (prompt individual) f)) pop w
    = Returns ev w'
    /\ map prompt ev = map prompt pop
    /\ extends w w'
    /\ draws w' = draws w
    /\ Forall (scored rt w') ev.
Proof.
  induction pop as [| x pop IH]; intro w; simpl.
  - exists [], w. repeat split; auto using extends_refl.
  - set (o := service rt (List.length (log w))).
    set (w1 := mkWorld (log w ++ [(FitnessRequest (prompt x), o)]) (draws w)).
    destruct (IH w1) as (ev & w' & Hrun & Hp & Hext & Hd & Hs).
    assert (Hx : (f <- calculatePromptFitness rt (prompt x) t ;;
                  ret (mkIndividual (prompt x) f)) w
                 = Returns (mkIndividual (prompt x) (fitnessOfOutcome rt o)) w1).
    { unfold bind. rewrite calculatePromptFitness_eq. reflexivity. }
    rewrite (bind_step _ _ _ _ _ Hx), (bind_step _ _ _ _ _ Hrun).
    unfold ret.
    exists (mkIndividual (prompt x) (fitnessOfOutcome rt o) :: ev), w'.
    assert (He1 : extends w w1) by (eexists; reflexivity).
    repeat split.
    + simpl. rewrite Hp. reflexivity.
    + eapply extends_trans; eassumption.
    + rewrite Hd. reflexivity.
    + constructor; [| exact Hs].
      apply (scored_extends w1); [exact Hext |].
      exists (prompt x), o. split; [| reflexivity].
      simpl. apply in_or_app. right. left. reflexivity.
Qed.

Lemma evaluateFitness_spec pop t w :
  exists pop' w',
    evaluateFitness rt pop t w = Returns pop' w'
    /\ List.length pop' = List.length pop
    /\ extends w w'
    /\ draws w' = draws w
    /\ Forall (scored rt w') pop'.
Proof.
  destruct (evaluate_each_spec t pop w) as (ev & w' & Hrun & Hp & He & Hd & Hs).
  unfold evaluateFitness. rewrite (bind_step _ _ _ _ _ Hrun). unfold ret.
  exists (sortByFitness ev), w'. repeat split; auto.
  - rewrite sortByFitness_length.
    rewrite <- (length_map prompt ev), Hp. apply length_map.
  - apply sortByFitness_Forall. exact Hs.
Qed.

Lemma scored_range w i : scored rt w i -> 0 <= fitness i <= 1.
Proof.
  intros (p & o & _ & ->). apply fitnessOfOutcome_range.
Qed.

End OperatorFacts.

(* ================================================================= *)
(** ** Computations that only add to the log *)


Lemma logMonotone_ret {A} (a : A) : logMonotone (ret a).
Proof.
  intros w a' w' H. inversion H; subst. apply extends_refl.
Qed.

Lemma logMonotone_throw {A} : logMonotone (@throwTypeError A).
Proof.
  intros w a w' H. discriminate H.
Qed.

Lemma logMonotone_bind {A B} (m : M A) (k : A -> M B) :
  logMonotone m -> (forall a, logMonotone (k a)) -> logMonotone (bind m k).
Proof.
  intros Hm Hk w b w' H.
  apply bind_Returns in H as (a & w1 & H1 & H2).
  eapply extends_trans; [eapply Hm | eapply Hk]; eassumption.
Qed.

Lemma logMonotone_total {A} (m : M A) :
  (forall w, exists a w', m w = Returns a w' /\ extends w w') -> logMonotone m.
Proof.
  intros H w a w' Hrun. destruct (H w) as (a' & w'' & Hrun' & He).
  rewrite Hrun in Hrun'. inversion Hrun'; subst. exact He.
Qed.

Section PopulationFacts.

Variable rt : Runtime.

Lemma logMonotone_mathRandom : logMonotone (mathRandom rt).
Proof.
  intros w a w' H. inversion H; subst. exists []. simpl.
  symmetry. apply app_nil_r.
Qed.

Lemma logMonotone_mutatePrompt p s : logMonotone (mutatePrompt rt p s).
Proof. apply logMonotone_total. intro w. apply mutatePrompt_spec. Qed.

Lemma logMonotone_crossoverPrompts a b : logMonotone (crossoverPrompts rt a b).
Proof. apply logMonotone_total. intro w. apply crossoverPrompts_spec. Qed.

Lemma logMonotone_promptOf x : logMonotone (promptOf x).
Proof.
  destruct x; [apply logMonotone_ret | apply logMonotone_throw].
Qed.

(** *** Seeding *)

Lemma initializeLoop_spec (base : jsstring) (n : nat) : forall pop w,
  exists pop' w',
    initializeLoop rt n base pop w = Returns pop' w'
    /\ List.length pop' = (List.length pop + n)%nat
    /\ extends w w'.
Proof.
  induction n as [| n IH]; intros pop w; simpl.
  - exists pop, w. repeat split; [lia | apply extends_refl].
  - destruct (mutatePrompt_spec rt (Some base) 0.3 w) as (v & w1 & Hm & He1).
    rewrite (bind_step _ _ _ _ _ Hm).
    destruct (IH (pop ++ [mkIndividual v 0]) w1) as (pop' & w' & Hrun & Hlen & He2).
    exists pop', w'. repeat split.
    + exact Hrun.
    + rewrite Hlen, length_app. simpl. lia.
    + eapply extends_trans; eassumption.
Qed.

Lemma initializePopulation_spec (base : jsstring) (size : nat) w :
  exists pop w',
    initializePopulation rt base size w = Returns pop w'
    /\ List.length pop = Nat.max 1 size
    /\ extends w w'.
Proof.
  unfold initializePopulation.
  destruct (initializeLoop_spec base (size - 1) [mkIndividual (Some base) 0] w)
    as (pop & w' & Hrun & Hlen & He).
  exists pop, w'. repeat split; [exact Hrun | | exact He].
  rewrite Hlen. simpl List.length. lia.
Qed.

(** *** Tournament selection *)


Lemma index_in_range (pop : list Individual) (r : Q) :
  0 <= r -> r < 1 -> pop <> [] ->
  isDefined (index pop (Qfloor (r * inject_Z (Z.of_nat (List.length pop))))).
Proof.
  intros H0 H1 Hne.
  set (n := Z.of_nat (List.length pop)).
  assert (Hn : (0 < n)%Z).
  { subst n. destruct pop; [congruence | simpl; lia]. }
  assert (HnQ : 0 < inject_Z n).
  { change 0 with (inject_Z 0). rewrite <- Zlt_Qlt. exact Hn. }
  set (x := r * inject_Z n).
  assert (Hx0 : 0 <= x).
  { apply Qmult_le_0_compat; [exact H0 | apply Qlt_le_weak; exact HnQ]. }
  assert (Hx1 : x < inject_Z n).
  { unfold x. setoid_replace (inject_Z n) with (1 * inject_Z n) at 2 by ring.
    apply Qmult_lt_compat_r; assumption. }
  assert (Hf0 : (0 <= Qfloor x)%Z).
  { rewrite <- (Qfloor_Z 0). apply Qfloor_resp_le. exact Hx0. }
  assert (Hf1 : (Qfloor x < n)%Z).
  { rewrite Zlt_Qlt. eapply Qle_lt_trans; [apply Qfloor_le | exact Hx1]. }
  unfold index, isDefined.
  destruct (Qfloor x <? 0)%Z eqn:E; [apply Z.ltb_lt in E; lia |].
  destruct (nth_error pop (Z.to_nat (Qfloor x))) as [i |] eqn:En.
  - exists i. reflexivity.
  - apply nth_error_None in En. subst n. lia.
Qed.

Lemma tournamentLoop_spec (pop : list Individual) (n : nat) : forall t w,
  exists t' w',
    tournamentLoop rt n pop t w = Returns t' w'
    /\ log w' = log w
    /\ List.length t' = (List.length t + n)%nat
    /\ (validRandom rt -> pop <> [] -> Forall isDefined t -> Forall isDefined t').
Proof.
  induction n as [| n IH]; intros t w; simpl.
  - exists t, w. repeat split; auto.
  - unfold bind at 1. unfold mathRandom at 1.
    set (idx := Qfloor (random rt (draws w) * inject_Z (Z.of_nat (List.length pop)))).
    destruct (IH (t ++ [index pop idx]) (mkWorld (log w) (S (draws w))))
      as (t' & w' & Hrun & Hlog & Hlen & Hdef).
    exists t', w'. repeat split.
    + exact Hrun.
    + exact Hlog.
    + rewrite Hlen, length_app. simpl. lia.
    + intros Hv Hne Ht. apply Hdef; auto.
      apply Forall_app. split; [exact Ht |].
      constructor; [| constructor].
      destruct (Hv (draws w)). apply index_in_range; assumption.
Qed.

Lemma sortSparse_head (t : list (option Individual)) :
  t <> [] -> Forall isDefined t ->
  exists x, hd_error (sortSparse t) = Some (Some x).
Proof.
  intros Hne Hdef. destruct t as [| o t]; [congruence |].
  inversion Hdef as [| ? ? [i ->] _]; subst.
  unfold sortSparse. simpl definedOf.
  destruct (sortByFitness_nonempty (i :: definedOf t)) as [x Hx];
    [discriminate |].
  destruct (sortByFitness (i :: definedOf t)) as [| y s]; [discriminate |].
  simpl in Hx. inversion Hx; subst. exists x. reflexivity.
Qed.

Lemma tournamentSelect_spec (pop : list Individual) (n : nat) w :
  exists r w',
    tournamentSelect rt pop n w = Returns r w'
    /\ log w' = log w
    /\ (validRandom rt -> pop <> [] -> (0 < n)%nat -> isDefined r).
Proof.
  unfold tournamentSelect.
  destruct (tournamentLoop_spec pop n [] w) as (t & w' & Hrun & Hlog & Hlen & Hdef).
  rewrite (bind_step _ _ _ _ _ Hrun). unfold ret.
  eexists _, w'. repeat split; [exact Hlog |].
  intros Hv Hne Hn.
  destruct (sortSparse_head t) as [x Hx].
  - destruct t; [simpl in Hlen; lia | discriminate].
  - apply Hdef; auto.
  - rewrite Hx. exists x. reflexivity.
Qed.

Lemma logMonotone_tournamentSelect pop n : logMonotone (tournamentSelect rt pop n).
Proof.
  apply logMonotone_total. intro w.
  destruct (tournamentSelect_spec pop n w) as (r & w' & Hrun & Hlog & _).
  exists r, w'. split; [exact Hrun |].
  exists []. rewrite Hlog. symmetry. apply app_nil_r.
Qed.

End PopulationFacts.

(* ================================================================= *)
(** ** Facts about reproduction *)


Section ReproductionFacts.

Variable rt : Runtime.

Lemma elite_length (pop : list Individual) (count : nat) :
  List.length (elite pop count) = count.
Proof.
  unfold elite. rewrite length_map, length_seq. reflexivity.
Qed.

Lemma logMonotone_offspringLoop pop b (n : nat) : forall newPop,
  logMonotone (offspringLoop rt n pop b newPop).
Proof.
  induction n as [| n IH]; intro newPop; simpl.
  - apply logMonotone_ret.
  - apply logMonotone_bind; [apply logMonotone_tournamentSelect | intro parent1].
    apply logMonotone_bind; [apply logMonotone_tournamentSelect | intro parent2].
    apply logMonotone_bind; [apply logMonotone_mathRandom | intro r1].
    apply logMonotone_bind.
    + destruct (Qltb r1 (bCrossoverRate b)); [| apply logMonotone_promptOf].
      apply logMonotone_bind; [apply logMonotone_promptOf | intro p1].
      apply logMonotone_bind; [apply logMonotone_promptOf | intro p2].
      apply logMonotone_crossoverPrompts.
    + intro child.
      apply logMonotone_bind; [apply logMonotone_mathRandom | intro r2].
      apply logMonotone_bind; [| intro child'; apply IH].
      destruct (Qltb r2 (bMutationRate b));
        [apply logMonotone_mutatePrompt | apply logMonotone_ret].
Qed.

Lemma offspringLoop_length pop b (n : nat) : forall newPop w res w',
  offspringLoop rt n pop b newPop w = Returns res w' ->
  List.length res = (List.length newPop + n)%nat.
Proof.
  induction n as [| n IH]; intros newPop w res w' H; simpl in H.
  - inversion H; subst. lia.
  - do 6 bind_inv H.
    apply IH in H. rewrite H, length_app. simpl. lia.
Qed.

Lemma offspringLoop_returns pop b (n : nat) :
  validRandom rt -> pop <> [] ->
  forall newPop w, exists res w', offspringLoop rt n pop b newPop w = Returns res w'.
Proof.
  intros Hv Hne. induction n as [| n IH]; intros newPop w; simpl.
  - exists newPop, w. reflexivity.
  - destruct (tournamentSelect_spec rt pop 3 w) as (r1 & w1 & Hr1 & _ & Hd1).
    destruct Hd1 as [i1 ->]; [assumption | assumption | lia |].
    rewrite (bind_step _ _ _ _ _ Hr1).
    destruct (tournamentSelect_spec rt pop 3 w1) as (r2 & w2 & Hr2 & _ & Hd2).
    destruct Hd2 as [i2 ->]; [assumption | assumption | lia |].
    rewrite (bind_step _ _ _ _ _ Hr2).
    unfold bind at 1. unfold mathRandom at 1.
    set (w3 := mkWorld (log w2) (S (draws w2))).
    assert (Hchild : exists child w4,
               (if Qltb (random rt (draws w2)) (bCrossoverRate b)
                then p1 <- promptOf (Some i1) ;;
                     p2 <- promptOf (Some i2) ;; crossoverPrompts rt p1 p2
                else promptOf (Some i1)) w3 = Returns child w4).
    { destruct (Qltb (random rt (draws w2)) (bCrossoverRate b)).
      - simpl. unfold bind, ret.
        destruct (crossoverPrompts_spec rt (prompt i1) (prompt i2) w3)
          as (c & w4 & Hc & _).
        exists c, w4. exact Hc.
      - simpl. eexists _, _. reflexivity. }
    destruct Hchild as (child & w4 & Hchild).
    rewrite (bind_step _ _ _ _ _ Hchild).
    unfold bind at 1. unfold mathRandom at 1.
    set (w5 := mkWorld (log w4) (S (draws w4))).
    assert (Hmut : exists child' w6,
               (if Qltb (random rt (draws w4)) (bMutationRate b)
                then mutatePrompt rt child 0.2 else ret child) w5
               = Returns child' w6).
    { destruct (Qltb (random rt (draws w4)) (bMutationRate b)).
      - destruct (mutatePrompt_spec rt child 0.2 w5) as (c & w6 & Hc & _).
        exists c, w6. exact Hc.
      - eexists _, _. reflexivity. }
    destruct Hmut as (child' & w6 & Hmut).
    rewrite (bind_step _ _ _ _ _ Hmut).
    apply IH.
Qed.

Lemma logMonotone_evolvePopulation pop b : logMonotone (evolvePopulation rt pop b).
Proof.
  unfold evolvePopulation. apply logMonotone_offspringLoop.
Qed.

Lemma evolvePopulation_length pop b w pop' w' :
  evolvePopulation rt pop b w = Returns pop' w' ->
  List.length pop' = Nat.max (List.length pop) (eliteCount b).
Proof.
  unfold evolvePopulation. intro H.
  apply offspringLoop_length in H. rewrite H, elite_length. lia.
Qed.

Lemma evolvePopulation_returns pop b w :
  validRandom rt -> pop <> [] ->
  exists pop' w', evolvePopulation rt pop b w = Returns pop' w'.
Proof.
  intros Hv Hne. unfold evolvePopulation. apply offspringLoop_returns; assumption.
Qed.

End ReproductionFacts.

Lemma eliteCount_makeBreeding (c : Config) :
  (2 <= populationSize c)%nat ->
  (eliteCount (makeBreeding c) <= populationSize c)%nat.
Proof.
  intro H.
  change (eliteCount (makeBreeding c))
    with (Nat.max 2 (Z.to_nat (Qfloor (inject_Z (Z.of_nat (populationSize c)) * 0.1)))).
  set (n := Z.of_nat (populationSize c)).
  assert (Hn : 0 <= inject_Z n).
  { subst n. apply inject_nat_nonneg. }
  assert (Hf : (Qfloor (inject_Z n * 0.1) <= n)%Z).
  { rewrite <- (Qfloor_Z n) at 2. apply Qfloor_resp_le. lra. }
  apply Nat.max_lub; [exact H |]. subst n. lia.
Qed.

(* ================================================================= *)
(** ** Tracking the best solution *)


Lemma StronglySorted_snoc {A} (R : A -> A -> Prop) (l : list A) (x : A) :
  StronglySorted R l -> Forall (fun a => R a x) l -> StronglySorted R (l ++ [x]).
Proof.
  induction 1 as [| a l Hl IH Ha]; intro Hx; simpl.
  - constructor; constructor.
  - inversion Hx; subst. constructor.
    + apply IH. assumption.
    + apply Forall_app. split; [assumption | constructor; [assumption | constructor]].
Qed.

Lemma snoc_cases {A} (l : list A) :
  l = [] \/ exists l' a, l = l' ++ [a].
Proof.
  induction l as [| a l _] using rev_ind; [left | right; exists l, a]; reflexivity.
Qed.

Lemma last_map_Some {A} (l : list A) (r : A) :
  last (map Some (l ++ [r])) None = Some r.
Proof.
  rewrite map_app. simpl. apply last_last.
Qed.

Section Tracking.

Variable seed : Individual.
Hypothesis seed_fitness : fitness seed = 0.


Lemma TrackInv_start : TrackInv seed 0 seed [].
Proof.
  split; simpl; auto.
  - rewrite seed_fitness. lra.
  - intros l r H. destruct l; discriminate.
  - constructor.
  - discriminate.
Qed.

Lemma TrackInv_weaken bound be imps :
  TrackInv seed bound be imps -> TrackInv seed (S bound) be imps.
Proof.
  intros [H1 H2 H3 H4 H5 Hp H6 H7 H8]. split; auto.
  eapply Forall_impl; [| exact H4]. simpl. intros; lia.
Qed.

(** The subtrahend of line 41 is the fitness of [bestEver]. *)
Lemma previous_fitness g be imps :
  TrackInv seed g be imps ->
  (if (0 <? g)%nat then lastFitnessOr0 imps else 0) = fitness be.
Proof.
  intros [H1 H2 H3 H4 H5 Hp H6 H7 H8].
  destruct (snoc_cases imps) as [-> | (l & r & ->)].
  - rewrite (H2 eq_refl), seed_fitness.
    destruct (0 <? g)%nat; reflexivity.
  - destruct (H3 l r eq_refl) as [Hr Hpos].
    destruct (0 <? g)%nat eqn:Eg.
    + unfold lastFitnessOr0. rewrite last_map_Some.
      destruct (Qeq_bool (recFitness r) 0) eqn:E; [| exact Hr].
      apply Qeq_bool_iff in E. lra.
    + apply Nat.ltb_ge in Eg. rewrite length_app in H7. simpl in H7. lia.
Qed.

Lemma track_keep g cb be imps :
  fitness cb <= fitness be -> track g cb be imps = (be, imps).
Proof.
  intro H. unfold track.
  destruct (Qltb (fitness be) (fitness cb)) eqn:E; [| reflexivity].
  apply Qltb_true in E. lra.
Qed.

Lemma track_update g cb be imps :
  TrackInv seed g be imps -> fitness be < fitness cb ->
  track g cb be imps =
  (cb, imps ++ [mkRecord g (fitness cb) (fitness cb - fitness be)]).
Proof.
  intros HI H. unfold track.
  destruct (Qltb (fitness be) (fitness cb)) eqn:E.
  - rewrite (previous_fitness g be imps HI). reflexivity.
  - apply Qltb_false in E. lra.
Qed.

Lemma track_TrackInv g cb be imps :
  TrackInv seed g be imps ->
  TrackInv seed (S g) (fst (track g cb be imps)) (snd (track g cb be imps)).
Proof.
  intro HI. destruct (Qlt_le_dec (fitness be) (fitness cb)) as [Hlt | Hle].
  - rewrite (track_update g cb be imps HI Hlt). simpl.
    destruct HI as [H1 H2 H3 H4 H5 Hp H6 H7 H8]. split.
    + lra.
    + intro H. destruct imps; discriminate.
    + intros l r H. apply app_inj_tail in H as [_ <-]. simpl. split; [reflexivity | lra].
    + apply Forall_app. split.
      * eapply Forall_impl; [| exact H4]. simpl. intros; lia.
      * constructor; [simpl; lia | constructor].
    + apply Forall_app. split.
      * eapply Forall_impl; [| exact H5]. simpl. intros; lra.
      * constructor; [simpl; lra | constructor].
    + apply Forall_app. split; [exact Hp |].
      constructor; [simpl; lra | constructor].
    + apply StronglySorted_snoc; [exact H6 |].
      rewrite Forall_forall in H4, H5. apply Forall_forall. intros a Ha.
      specialize (H4 a Ha). specialize (H5 a Ha). simpl in H4, H5.
      split; simpl; [lia | lra].
    + rewrite length_app. simpl. lia.
    + intros r Hr. destruct imps as [| a imps].
      * simpl in Hr. inversion Hr; subst. simpl.
        rewrite (H2 eq_refl), seed_fitness. ring.
      * simpl in Hr. apply H8. exact Hr.
  - rewrite (track_keep g cb be imps Hle). simpl.
    apply TrackInv_weaken. exact HI.
Qed.

End Tracking.

(* ================================================================= *)
(** ** Facts about the generation loop *)


Section LoopFacts.

Variable rt : Runtime.
Variable cfg : Config.


Lemma evaluateAndTrack_inv st w st1 stop w1 :
  evaluateAndTrack rt cfg st w = Returns (st1, stop) w1 ->
  exists cb,
    evaluateFitness rt (population st) (fitnessFunction cfg) w
    = Returns (population st1) w1
    /\ hd_error (population st1) = Some cb
    /\ scored rt w1 cb
    /\ (bestEver st1, improvementsLog st1)
       = track (gen st) cb (bestEver st) (improvementsLog st)
    /\ gen st1 = gen st
    /\ stop = Qle_bool 0.98 (fitness cb)
    /\ List.length (population st1) = List.length (population st).
Proof.
  unfold evaluateAndTrack. intro H.
  destruct (evaluateFitness_spec rt (population st) (fitnessFunction cfg) w)
    as (pop & w' & Hev & Hlen & _ & _ & Hsc).
  rewrite (bind_step _ _ _ _ _ Hev) in H.
  destruct pop as [| cb pop]; [discriminate H |].
  simpl in H. unfold bind, ret in H.
  destruct (track (gen st) cb (bestEver st) (improvementsLog st)) as [b i] eqn:Et.
  inversion H; subst; clear H. simpl.
  exists cb. repeat split; auto.
  inversion Hsc; assumption.
Qed.

Lemma evaluateAndTrack_returns st w :
  population st <> [] ->
  exists st1 stop w1, evaluateAndTrack rt cfg st w = Returns (st1, stop) w1.
Proof.
  intro Hne. unfold evaluateAndTrack.
  destruct (evaluateFitness_spec rt (population st) (fitnessFunction cfg) w)
    as (pop & w' & Hev & Hlen & _).
  rewrite (bind_step _ _ _ _ _ Hev).
  destruct pop as [| cb pop].
  - destruct (population st); [congruence | discriminate].
  - simpl. unfold bind, ret.
    destruct (track (gen st) cb (bestEver st) (improvementsLog st)).
    eexists _, _, _. reflexivity.
Qed.

Lemma evaluateAndTrack_LoopInv st w st1 stop w1 :
  LoopInv cfg (gen st) st ->
  evaluateAndTrack rt cfg st w = Returns (st1, stop) w1 ->
  LoopInv cfg (S (gen st1)) st1.
Proof.
  intros [Ht Hne Hsz] H.
  apply evaluateAndTrack_inv in H
    as (cb & _ & Hhd & _ & Htr & Hg & _ & Hlen).
  rewrite Hg. split.
  - pose proof (track_TrackInv (seedOf cfg) eq_refl (gen st) cb _ _ Ht) as HT.
    rewrite <- Htr in HT. exact HT.
  - intro E. rewrite E in Hhd. discriminate.
  - intro H2. rewrite Hlen. apply Hsz. exact H2.
Qed.

Lemma reproduce_inv st w st' w' :
  reproduce rt cfg st w = Returns st' w' ->
  evolvePopulation rt (population st) (makeBreeding cfg) w
  = Returns (population st') w'
  /\ bestEver st' = bestEver st
  /\ improvementsLog st' = improvementsLog st
  /\ gen st' = S (gen st).
Proof.
  unfold reproduce. intro H. bind_inv H.
  inversion H; subst; clear H. simpl. auto.
Qed.

Lemma reproduce_LoopInv st w st' w' :
  LoopInv cfg (S (gen st)) st ->
  reproduce rt cfg st w = Returns st' w' ->
  LoopInv cfg (gen st') st'.
Proof.
  intros [Ht Hne Hsz] H.
  apply reproduce_inv in H as (Hev & Hb & Hi & Hg).
  apply evolvePopulation_length in Hev.
  rewrite Hg. split.
  - rewrite Hb, Hi. exact Ht.
  - intro E. rewrite E in Hev. cbn [List.length] in Hev.
    pose proof (Nat.le_max_r (List.length (population st))
                  (eliteCount (makeBreeding cfg))) as Hm.
    assert (He : (2 <= eliteCount (makeBreeding cfg))%nat)
      by apply Nat.le_max_l.
    lia.
  - intro H2. rewrite Hev, (Hsz H2).
    apply Nat.max_l. apply eliteCount_makeBreeding. exact H2.
Qed.

Lemma reproduce_returns st w :
  validRandom rt -> population st <> [] ->
  exists st' w', reproduce rt cfg st w = Returns st' w'.
Proof.
  intros Hv Hne. unfold reproduce.
  destruct (evolvePopulation_returns rt (population st) (makeBreeding cfg) w Hv Hne)
    as (pop & w' & Hev).
  rewrite (bind_step _ _ _ _ _ Hev). eexists _, _. reflexivity.
Qed.

Lemma iteration_inv st w st' stop w' :
  iteration rt cfg st w = Returns (st', stop) w' ->
  if stop then evaluateAndTrack rt cfg st w = Returns (st', true) w'
  else exists st1 w1,
         evaluateAndTrack rt cfg st w = Returns (st1, false) w1
         /\ reproduce rt cfg st1 w1 = Returns st' w'.
Proof.
  unfold iteration. intro H. bind_inv H. destruct a as [st1 stop1].
  destruct stop1.
  - inversion H; subst. exact Hrun.
  - bind_inv H. inversion H; subst. exists st1, w0. auto.
Qed.

Lemma iteration_LoopInv st w st' stop w' :
  LoopInv cfg (gen st) st ->
  iteration rt cfg st w = Returns (st', stop) w' ->
  if stop then LoopInv cfg (S (gen st')) st' /\ gen st' = gen st
  else LoopInv cfg (gen st') st' /\ gen st' = S (gen st).
Proof.
  intros HI H. apply iteration_inv in H. destruct stop.
  - split; [eapply evaluateAndTrack_LoopInv; eassumption |].
    apply evaluateAndTrack_inv in H as (cb & _ & _ & _ & _ & Hg & _). exact Hg.
  - destruct H as (st1 & w1 & H1 & H2).
    pose proof (evaluateAndTrack_LoopInv _ _ _ _ _ HI H1) as HI1.
    split; [eapply reproduce_LoopInv; eassumption |].
    apply reproduce_inv in H2 as (_ & _ & _ & Hg).
    apply evaluateAndTrack_inv in H1 as (cb & _ & _ & _ & _ & Hg1 & _).
    rewrite Hg, Hg1. reflexivity.
Qed.

Lemma iteration_returns st w :
  validRandom rt -> LoopInv cfg (gen st) st ->
  exists st' stop w', iteration rt cfg st w = Returns (st', stop) w'.
Proof.
  intros Hv HI.
  destruct (evaluateAndTrack_returns st w (inv_nonempty _ _ _ HI))
    as (st1 & stop & w1 & H1).
  unfold iteration. rewrite (bind_step _ _ _ _ _ H1). destruct stop.
  - eexists _, _, _. reflexivity.
  - pose proof (evaluateAndTrack_LoopInv _ _ _ _ _ HI H1) as HI1.
    destruct (reproduce_returns st1 w1 Hv (inv_nonempty _ _ _ HI1))
      as (st2 & w2 & H2).
    rewrite (bind_step _ _ _ _ _ H2). eexists _, _, _. reflexivity.
Qed.

Lemma initialState_LoopInv w pop w' :
  initializePopulation rt (basePrompt cfg) (populationSize cfg) w = Returns pop w' ->
  LoopInv cfg 0 (initialState cfg pop).
Proof.
  intro H.
  destruct (initializePopulation_spec rt (basePrompt cfg) (populationSize cfg) w)
    as (pop0 & w0 & H0 & Hlen & _).
  rewrite H in H0. inversion H0; subst. split; simpl.
  - apply (TrackInv_start (seedOf cfg) eq_refl).
  - intro E. rewrite E in Hlen. cbn [List.length] in Hlen. lia.
  - intro H2. rewrite Hlen. lia.
Qed.

End LoopFacts.

(* ================================================================= *)
(** ** Facts about whole runs *)


Section RunFacts.

Variable rt : Runtime.
Variable cfg : Config.


Lemma stateAt_succ_inv g w0 st' w' :
  stateAt rt cfg (S g) w0 = Returns (Some st') w' ->
  exists st w,
    stateAt rt cfg g w0 = Returns (Some st) w
    /\ iteration rt cfg st w = Returns (st', false) w'.
Proof.
  simpl. intro H. bind_inv H. destruct a as [st |]; [| discriminate H].
  bind_inv H. destruct a as [st1 stop]. destruct stop; [discriminate H |].
  inversion H; subst. exists st, w. auto.
Qed.

Lemma stateAt_succ g w0 st w st' w' :
  stateAt rt cfg g w0 = Returns (Some st) w ->
  iteration rt cfg st w = Returns (st', false) w' ->
  stateAt rt cfg (S g) w0 = Returns (Some st') w'.
Proof.
  intros H1 H2. simpl.
  rewrite (bind_step _ _ _ _ _ H1), (bind_step _ _ _ _ _ H2). reflexivity.
Qed.

Lemma stateAt_LoopInv g : forall w0 st w,
  stateAt rt cfg g w0 = Returns (Some st) w ->
  LoopInv cfg (gen st) st /\ gen st = g.
Proof.
  induction g as [| g IH]; intros w0 st w H.
  - simpl in H. bind_inv H. inversion H; subst.
    split; [| reflexivity]. eapply initialState_LoopInv. eassumption.
  - apply stateAt_succ_inv in H as (st0 & w1 & H0 & Hit).
    destruct (IH _ _ _ H0) as [HI Hg].
    pose proof (iteration_LoopInv rt cfg _ _ _ _ _ HI Hit) as [HI' Hg'].
    split; [exact HI' | lia].
Qed.

Lemma generationLoop_LoopInv n : forall st w stf wf,
  LoopInv cfg (gen st) st ->
  generationLoop rt cfg n st w = Returns stf wf ->
  LoopInv cfg (S (gen stf)) stf.
Proof.
  induction n as [| n IH]; intros st w stf wf HI H; simpl in H.
  - inversion H; subst. destruct HI as [Ht Hne Hsz].
    split; auto. apply TrackInv_weaken. exact Ht.
  - bind_inv H. destruct a as [st' stop].
    pose proof (iteration_LoopInv rt cfg _ _ _ _ _ HI Hrun) as HI'.
    destruct stop.
    + inversion H; subst. apply HI'.
    + eapply IH; [apply HI' | exact H].
Qed.

Lemma generationLoop_returns n : forall st w,
  validRandom rt -> LoopInv cfg (gen st) st ->
  exists stf wf, generationLoop rt cfg n st w = Returns stf wf.
Proof.
  induction n as [| n IH]; intros st w Hv HI; simpl.
  - eexists _, _. reflexivity.
  - destruct (iteration_returns rt cfg st w Hv HI) as (st' & stop & w' & Hit).
    rewrite (bind_step _ _ _ _ _ Hit).
    pose proof (iteration_LoopInv rt cfg _ _ _ _ _ HI Hit) as HI'.
    destruct stop.
    + eexists _, _. reflexivity.
    + apply IH; [exact Hv | apply HI'].
Qed.

Lemma runLoop_from_stateAt g : forall w0 st w,
  (g <= generations cfg)%nat ->
  stateAt rt cfg g w0 = Returns (Some st) w ->
  runLoop rt cfg w0 = generationLoop rt cfg (generations cfg - g) st w.
Proof.
  induction g as [| g IH]; intros w0 st w Hg H.
  - simpl in H. bind_inv H. inversion H; subst.
    unfold runLoop. rewrite (bind_step _ _ _ _ _ Hrun), Nat.sub_0_r. reflexivity.
  - apply stateAt_succ_inv in H as (st0 & w1 & H0 & Hit).
    rewrite (IH _ _ _ (Nat.lt_le_incl _ _ Hg) H0).
    replace (generations cfg - g)%nat with (S (generations cfg - S g)) by lia.
    simpl. rewrite (bind_step _ _ _ _ _ Hit). reflexivity.
Qed.

Lemma evolvePrompt_of_runLoop w0 st w :
  runLoop rt cfg w0 = Returns st w ->
  evolvePrompt rt cfg w0 = Returns (resultOf st) w.
Proof.
  intro H. unfold evolvePrompt. rewrite (bind_step _ _ _ _ _ H). reflexivity.
Qed.

Lemma runLoop_returns w0 :
  validRandom rt -> exists st w, runLoop rt cfg w0 = Returns st w.
Proof.
  intro Hv. unfold runLoop.
  destruct (initializePopulation_spec rt (basePrompt cfg) (populationSize cfg) w0)
    as (pop & w & Hinit & _).
  rewrite (bind_step _ _ _ _ _ Hinit).
  apply generationLoop_returns; [exact Hv |].
  eapply initialState_LoopInv. exact Hinit.
Qed.

Lemma runLoop_LoopInv w0 st w :
  runLoop rt cfg w0 = Returns st w -> LoopInv cfg (S (gen st)) st.
Proof.
  unfold runLoop. intro H. bind_inv H.
  eapply generationLoop_LoopInv; [| exact H].
  eapply initialState_LoopInv. exact Hrun.
Qed.

Lemma bestFitnessAt_inv g f :
  bestFitnessAt rt cfg g = Some f ->
  exists st w st1 w1,
    stateAt rt cfg g startWorld = Returns (Some st) w
    /\ evaluateAndTrack rt cfg st w = Returns (st1, Qle_bool 0.98 f) w1.
Proof.
  unfold bestFitnessAt. intro H.
  destruct (stateAt rt cfg g startWorld) as [[st |] w | w] eqn:Hs; try discriminate.
  destruct (evaluateFitness rt (population st) (fitnessFunction cfg) w)
    as [pop w1 | w1] eqn:He; [| discriminate].
  destruct pop as [| cb pop]; [discriminate |]. simpl in H. inversion H; subst.
  exists st, w. unfold evaluateAndTrack. rewrite (bind_step _ _ _ _ _ He).
  simpl. unfold bind, ret.
  destruct (track (gen st) cb (bestEver st) (improvementsLog st)).
  eexists _, _. split; reflexivity.
Qed.

Lemma bestFitnessAt_of_run g st w st1 stop w1 :
  stateAt rt cfg g startWorld = Returns (Some st) w ->
  evaluateAndTrack rt cfg st w = Returns (st1, stop) w1 ->
  exists f, bestFitnessAt rt cfg g = Some f /\ stop = Qle_bool 0.98 f.
Proof.
  intros Hs He. unfold bestFitnessAt. rewrite Hs.
  apply evaluateAndTrack_inv in He as (cb & Hev & Hhd & _ & _ & _ & Hstop & _).
  rewrite Hev, Hhd. exists (fitness cb). split; [reflexivity | exact Hstop].
Qed.

End RunFacts.

(* ================================================================= *)
(** ** The log along a run, and runs that never stop early *)

Section WholeRun.

Variable rt : Runtime.
Variable cfg : Config.

Lemma logMonotone_evaluateAndTrack st : logMonotone (evaluateAndTrack rt cfg st).
Proof.
  intros w [st1 stop] w1 H.
  apply evaluateAndTrack_inv in H as (cb & Hev & _).
  destruct (evaluateFitness_spec rt (population st) (fitnessFunction cfg) w)
    as (pop & w' & Hev' & _ & He & _).
  rewrite Hev in Hev'. inversion Hev'; subst. exact He.
Qed.

Lemma logMonotone_reproduce st : logMonotone (reproduce rt cfg st).
Proof.
  intros w st' w' H. apply reproduce_inv in H as (Hev & _).
  eapply logMonotone_evolvePopulation. exact Hev.
Qed.

Lemma logMonotone_iteration st : logMonotone (iteration rt cfg st).
Proof.
  unfold iteration. apply logMonotone_bind.
  - apply logMonotone_evaluateAndTrack.
  - intros [st1 stop]. destruct stop; [apply logMonotone_ret |].
    apply logMonotone_bind; [apply logMonotone_reproduce |].
    intro st2. apply logMonotone_ret.
Qed.

Lemma logMonotone_generationLoop n : forall st,
  logMonotone (generationLoop rt cfg n st).
Proof.
  induction n as [| n IH]; intro st; simpl.
  - apply logMonotone_ret.
  - apply logMonotone_bind; [apply logMonotone_iteration |].
    intros [st' stop]. destruct stop; [apply logMonotone_ret | apply IH].
Qed.

(** A pass whose evaluations all scored zero leaves the seed in place. *)
Lemma evaluateAndTrack_allZero st w st1 stop w1 wf :
  evaluateAndTrack rt cfg st w = Returns (st1, stop) w1 ->
  extends w1 wf ->
  allFitnessZero rt (log wf) ->
  bestEver st = seedOf cfg -> improvementsLog st = [] ->
  bestEver st1 = seedOf cfg /\ improvementsLog st1 = [].
Proof.
  intros He Hext Hz Hb Hi.
  apply evaluateAndTrack_inv in He as (cb & _ & _ & Hsc & Htr & _).
  apply (scored_extends rt w1 wf) in Hsc; [| exact Hext].
  destruct Hsc as (p & o & Hin & Hf).
  pose proof (Hz p o Hin) as H0.
  rewrite track_keep in Htr.
  - pose proof (f_equal fst Htr) as E1. pose proof (f_equal snd Htr) as E2.
    simpl in E1, E2. split; congruence.
  - rewrite Hb, Hf. simpl. lra.
Qed.

Lemma generationLoop_allZero n : forall st w stf wf,
  generationLoop rt cfg n st w = Returns stf wf ->
  allFitnessZero rt (log wf) ->
  bestEver st = seedOf cfg -> improvementsLog st = [] ->
  bestEver stf = seedOf cfg /\ improvementsLog stf = [].
Proof.
  induction n as [| n IH]; intros st w stf wf H Hz Hb Hi; simpl in H.
  - inversion H; subst. auto.
  - bind_inv H. destruct a as [st' stop].
    pose proof (iteration_inv rt cfg _ _ _ _ _ Hrun) as Hit.
    destruct stop.
    + inversion H; subst.
      eapply evaluateAndTrack_allZero; eauto using extends_refl.
    + destruct Hit as (st1 & w1 & He & Hr).
      assert (Hext : extends w1 wf).
      { eapply extends_trans.
        - eapply logMonotone_reproduce. exact Hr.
        - eapply logMonotone_generationLoop. exact H. }
      destruct (evaluateAndTrack_allZero _ _ _ _ _ _ He Hext Hz Hb Hi) as [Hb1 Hi1].
      apply reproduce_inv in Hr as (_ & Hb2 & Hi2 & _).
      eapply IH; [exact H | exact Hz | congruence | congruence].
Qed.

Lemma runLoopSkipLast_from_stateAt g : forall w0 st w,
  (g < generations cfg)%nat ->
  stateAt rt cfg g w0 = Returns (Some st) w ->
  runLoopSkipLast rt cfg w0
  = generationLoopSkipLast rt cfg (generations cfg - g) st w.
Proof.
  induction g as [| g IH]; intros w0 st w Hg H.
  - simpl in H. bind_inv H. inversion H; subst.
    unfold runLoopSkipLast.
    rewrite (bind_step _ _ _ _ _ Hrun), Nat.sub_0_r. reflexivity.
  - apply stateAt_succ_inv in H as (st0 & w1 & H0 & Hit).
    rewrite (IH _ _ _ (Nat.lt_le_incl _ _ Hg) H0).
    replace (generations cfg - g)%nat
      with (S (S (generations cfg - S (S g)))) by lia.
    replace (generations cfg - S g)%nat
      with (S (generations cfg - S (S g))) by lia.
    cbn [generationLoopSkipLast].
    rewrite (bind_step _ _ _ _ _ Hit). reflexivity.
Qed.

(** While no pass reaches the threshold, the loop gets to every pass. *)
Lemma stateAt_progress :
  validRandom rt ->
  (forall g f, (g < generations cfg)%nat ->
               bestFitnessAt rt cfg g = Some f -> f < 0.98) ->
  forall g, (g <= generations cfg)%nat ->
            exists st w, stateAt rt cfg g startWorld = Returns (Some st) w.
Proof.
  intros Hv Hnever. induction g as [| g IH]; intro Hg.
  - simpl.
    destruct (initializePopulation_spec rt (basePrompt cfg) (populationSize cfg)
                startWorld) as (pop & w & Hinit & _).
    rewrite (bind_step _ _ _ _ _ Hinit). eexists _, _. reflexivity.
  - destruct (IH (Nat.lt_le_incl _ _ Hg)) as (st & w & Hs).
    destruct (stateAt_LoopInv rt cfg g _ _ _ Hs) as [HI _].
    destruct (iteration_returns rt cfg st w Hv HI) as (st' & stop & w' & Hit).
    destruct stop.
    + pose proof (iteration_inv rt cfg _ _ _ _ _ Hit) as He. simpl in He.
      destruct (bestFitnessAt_of_run rt cfg g _ _ _ _ _ Hs He) as (f & Hb & Hstop).
      symmetry in Hstop. apply Qle_bool_iff in Hstop.
      pose proof (Hnever g f Hg Hb). lra.
    + exists st', w'. eapply stateAt_succ; eassumption.
Qed.

End WholeRun.

(* ================================================================= *)
(** ** Special cases of the run *)

Lemma makeBreeding_one (c : Config) :
  populationSize c = 1%nat -> eliteCount (makeBreeding c) = 2%nat.
Proof.
  intro H. unfold makeBreeding. rewrite H. reflexivity.
Qed.

Lemma evaluateFitness_single rt p f0 t w :
  evaluateFitness rt [mkIndividual p f0] t w =
  let o := service rt (List.length (log w)) in
  Returns [mkIndividual p (fitnessOfOutcome rt o)]
          (mkWorld (log w ++ [(FitnessRequest p, o)]) (draws w)).
Proof.
  unfold evaluateFitness. simpl mapM. unfold bind.
  rewrite calculatePromptFitness_eq. reflexivity.
Qed.

Lemma validRandom_half (lower : jsstring -> jsstring)
    (svc : nat -> option jsstring) :
  validRandom (mkRuntime lower svc (fun _ => 1 # 2)).
Proof.
  intro k. simpl. split; reflexivity || discriminate.
Qed.

(* ================================================================= *)
(** ** Properties of the fitness evaluator and the genetic operators *)

(** C5 (the code departs from it).  The claim asks for a cap on the
    methodological-terms signal below the sum of the per-term bonuses.
    On a response that names all five terms the signal contributes
    [5 * 0.08 = 0.4], the full sum of the per-term bonuses, which is twice
    the weight that [GENESIS_CONFIG] declares for the metric. *)
Theorem methodBonus_reaches_full_sum :
  methodScore asciiLower allTermsText = List.length methodTerms
  /\ methodBonus asciiLower allTermsText
     == inject_Z (Z.of_nat (List.length methodTerms)) * 0.08
  /\ methodologyWeight fitnessMetrics < methodBonus asciiLower allTermsText.
Proof.
  repeat split; vm_compute; reflexivity.
Qed.

(** The sum of the sub-signals can exceed 1; the final [Math.min] brings
    the score back to 1. *)
Example rawFitness_exceeds_one :
  1 < rawFitness asciiLower fullText /\ scoreResponse asciiLower fullText == 1.
Proof.
  split; vm_compute; reflexivity.
Qed.

(** C6.  Whatever the prompt and whatever the outcome of the external
    call (a response text or a failure), [calculatePromptFitness] returns
    a fitness between 0 and 1; on a response whose sub-signals add up to
    more than 1 it returns 1. *)
Theorem calculatePromptFitness_in_unit_interval
    (rt : Runtime) (p : option jsstring) (fitnessType : jsstring) (w : World) :
  exists f w',
    calculatePromptFitness rt p fitnessType w = Returns f w'
    /\ 0 <= f /\ f <= 1
    /\ (forall result,
          service rt (List.length (log w)) = Some result ->
          1 < rawFitness (toLowerCase rt) result -> f == 1).
Proof.
  rewrite calculatePromptFitness_eq. cbv zeta.
  eexists _, _. split; [reflexivity |].
  pose proof (fitnessOfOutcome_range rt (service rt (List.length (log w)))) as [H0 H1].
  repeat split; [exact H0 | exact H1 |].
  intros result -> Hraw. simpl. unfold scoreResponse.
  apply Q.min_r. apply Qlt_le_weak. exact Hraw.
Qed.

(** C8.  When the external call fails, [mutatePrompt] returns its input
    prompt, [crossoverPrompts] returns one of the two parents and
    [calculatePromptFitness] returns 0; each of them returns normally, and
    so does the engine as a whole. *)
Theorem service_failure_recovered (rt : Runtime) (w : World) :
  service rt (List.length (log w)) = None ->
  (forall p strength, exists w', mutatePrompt rt p strength w = Returns p w')
  /\ (forall a b, exists c w',
        crossoverPrompts rt a b w = Returns c w' /\ (c = a \/ c = b))
  /\ (forall p fitnessType, exists w',
        calculatePromptFitness rt p fitnessType w = Returns 0 w')
  /\ (forall cfg, validRandom rt ->
        exists r w', evolvePrompt rt cfg w = Returns r w').
Proof.
  intro Hfail. repeat split.
  - intros p strength. rewrite mutatePrompt_eq. cbv zeta. rewrite Hfail.
    eexists. reflexivity.
  - intros a b. rewrite crossoverPrompts_eq. cbv zeta. rewrite Hfail.
    eexists _, _. split; [reflexivity |].
    destruct (Qltb 0.5 (random rt (draws w))); auto.
  - intros p fitnessType. rewrite calculatePromptFitness_eq. cbv zeta.
    rewrite Hfail. eexists. reflexivity.
  - intros cfg Hv. destruct (runLoop_returns rt cfg w Hv) as (st & w' & Hrun).
    exists (resultOf st), w'. apply evolvePrompt_of_runLoop. exact Hrun.
Qed.

Lemma service_failure_recovered_witness :
  service failingRuntime (List.length (log startWorld)) = None
  /\ (exists w', mutatePrompt failingRuntime (Some modestText) 0.3 startWorld
                 = Returns (Some modestText) w')
  /\ (exists w', calculatePromptFitness failingRuntime (Some modestText)
                   (lit "quality") startWorld = Returns 0 w').
Proof.
  split; [reflexivity |].
  destruct (service_failure_recovered failingRuntime startWorld eq_refl)
    as (Hm & _ & Hf & _).
  split; [apply Hm | apply Hf].
Defined.

(* ================================================================= *)
(** ** Properties of the evolution controller *)

Lemma LoopInv_consistent (cfg : Config) (bound : nat) (st : LoopState) :
  LoopInv cfg bound st -> improvementsConsistent st.
Proof.
  intros [[H1 H2 H3 H4 H5 Hp H6 H7 H8] _ _]. split; [exact H6 |].
  intros Hne d.
  destruct (snoc_cases (improvementsLog st)) as [E | (l & r & E)];
    [congruence |].
  rewrite E, last_last. apply (H3 l r E).
Qed.

(** C1 (as amended).  In a pass of the loop whose best fitness is
    strictly greater than [bestEver.fitness], [bestEver] becomes the
    current best and one record is appended, with the index of the
    pass, the new fitness, and as improvement the new fitness minus the
    previous best-ever fitness; otherwise nothing is appended.  The first
    record of the log has its own fitness as improvement, which is
    positive: the previous best-ever fitness is then the initial 0. *)
Theorem improvement_is_gain_over_previous_best
    (rt : Runtime) (cfg : Config) (g : nat)
    (st : LoopState) (w : World) (st1 : LoopState) (stop : bool) (w1 : World)
    (cb : Individual) :
  stateAt rt cfg g startWorld = Returns (Some st) w ->
  evaluateAndTrack rt cfg st w = Returns (st1, stop) w1 ->
  hd_error (population st1) = Some cb ->
  (fitness (bestEver st) < fitness cb ->
     bestEver st1 = cb
     /\ improvementsLog st1 =
        improvementsLog st
        ++ [mkRecord g (fitness cb) (fitness cb - fitness (bestEver st))])
  /\ (fitness cb <= fitness (bestEver st) ->
        bestEver st1 = bestEver st /\ improvementsLog st1 = improvementsLog st)
  /\ (forall r, hd_error (improvementsLog st1) = Some r ->
        improvement r == recFitness r /\ 0 < improvement r).
Proof.
  intros Hs He Hhd.
  destruct (stateAt_LoopInv rt cfg g _ _ _ Hs) as [HI Hg].
  pose proof (evaluateAndTrack_LoopInv rt cfg _ _ _ _ _ HI He) as HI1.
  apply evaluateAndTrack_inv in He as (cb' & _ & Hhd' & _ & Htr & _).
  rewrite Hhd in Hhd'. inversion Hhd'; subst cb'. clear Hhd'.
  repeat split.
  - rewrite (track_update (seedOf cfg) eq_refl _ _ _ _ (inv_track _ _ _ HI) H) in Htr.
    inversion Htr. reflexivity.
  - rewrite (track_update (seedOf cfg) eq_refl _ _ _ _ (inv_track _ _ _ HI) H) in Htr.
    subst g. apply (f_equal snd) in Htr. exact Htr.
  - rewrite (track_keep _ _ _ _ H) in Htr. inversion Htr. reflexivity.
  - rewrite (track_keep _ _ _ _ H) in Htr. inversion Htr. reflexivity.
  - apply (first_gain _ _ _ _ (inv_track _ _ _ HI1)). exact H.
  - rewrite (first_gain _ _ _ _ (inv_track _ _ _ HI1) r H).
    pose proof (fits_positive _ _ _ _ (inv_track _ _ _ HI1)) as Hp.
    destruct (improvementsLog st1) as [| r0 l]; [discriminate |].
    simpl in H. inversion H; subst. inversion Hp; assumption.
Qed.

(** C1 (as stated) fails: in this run the first record of the log has a
    non-zero improvement. *)
Lemma first_improvement_not_zero :
  exists r w rec,
    evolvePrompt steadyRuntime (sampleConfig 1 2) startWorld = Returns r w
    /\ hd_error (improvements r) = Some rec
    /\ ~ improvement rec == 0.
Proof.
  eexists _, _, _. split; [vm_compute; reflexivity |].
  split; [reflexivity |].
  vm_compute. discriminate.
Qed.

Lemma improvement_is_gain_over_previous_best_witness :
  exists st w st1 stop w1 cb,
    stateAt risingRuntime (sampleConfig 2 2) 1 startWorld = Returns (Some st) w
    /\ evaluateAndTrack risingRuntime (sampleConfig 2 2) st w
       = Returns (st1, stop) w1
    /\ hd_error (population st1) = Some cb
    /\ fitness (bestEver st) < fitness cb
    /\ improvementsLog st1 =
       improvementsLog st
       ++ [mkRecord 1 (fitness cb) (fitness cb - fitness (bestEver st))].
Proof.
  eexists _, _, _, _, _, _.
  split; [vm_compute; reflexivity |].
  split; [vm_compute; reflexivity |].
  split; [reflexivity |].
  split; [vm_compute; reflexivity |].
  refine (proj2 (proj1 (improvement_is_gain_over_previous_best
                   risingRuntime (sampleConfig 2 2) 1 _ _ _ _ _ _ _ _ _) _)).
  - vm_compute; reflexivity.
  - vm_compute; reflexivity.
  - reflexivity.
  - vm_compute; reflexivity.
Defined.

(** C2.  When the best fitness of pass [g] is at least 0.98 and [g] is
    not the last pass, the loop ends in pass [g], in the state and the
    world reached right after the evaluation of that pass (so without
    reproduction), and [generationsRun] is at most [g + 1]. *)
Theorem converged_run_stops_at_once
    (rt : Runtime) (cfg : Config) (g : nat) (f : Q) :
  (g < generations cfg - 1)%nat ->
  bestFitnessAt rt cfg g = Some f ->
  0.98 <= f ->
  exists st w st1 w1,
    stateAt rt cfg g startWorld = Returns (Some st) w
    /\ evaluateAndTrack rt cfg st w = Returns (st1, true) w1
    /\ runLoop rt cfg startWorld = Returns st1 w1
    /\ gen st1 = g
    /\ evolvePrompt rt cfg startWorld = Returns (resultOf st1) w1
    /\ (generationsRun (resultOf st1) <= g + 1)%nat.
Proof.
  intros Hg Hb Hf.
  apply bestFitnessAt_inv in Hb as (st & w & st1 & w1 & Hs & He).
  apply Qle_bool_iff in Hf. rewrite Hf in He.
  destruct (stateAt_LoopInv rt cfg g _ _ _ Hs) as [HI Hgen].
  pose proof (evaluateAndTrack_LoopInv rt cfg _ _ _ _ _ HI He) as HI1.
  assert (Hg1 : gen st1 = g).
  { apply evaluateAndTrack_inv in He as (cb & _ & _ & _ & _ & Hg1 & _). lia. }
  assert (Hrun : runLoop rt cfg startWorld = Returns st1 w1).
  { rewrite (runLoop_from_stateAt rt cfg g _ _ _ ltac:(lia) Hs).
    replace (generations cfg - g)%nat with (S (generations cfg - S g)) by lia.
    simpl. unfold iteration. unfold bind at 1.
    rewrite (bind_step _ _ _ _ _ He). reflexivity. }
  exists st, w, st1, w1. repeat split; auto.
  - apply evolvePrompt_of_runLoop. exact Hrun.
  - simpl. pose proof (imps_length _ _ _ _ (inv_track _ _ _ HI1)). lia.
Qed.

Lemma converged_run_stops_at_once_witness :
  exists st1 w1,
    runLoop perfectRuntime (sampleConfig 3 2) startWorld = Returns st1 w1
    /\ gen st1 = 0%nat
    /\ (generationsRun (resultOf st1) <= 0 + 1)%nat.
Proof.
  assert (H0 : (0 < generations (sampleConfig 3 2) - 1)%nat) by (simpl; lia).
  assert (H1 : bestFitnessAt perfectRuntime (sampleConfig 3 2) 0 = Some 1)
    by (vm_compute; reflexivity).
  assert (H2 : 0.98 <= 1) by (vm_compute; discriminate).
  destruct (converged_run_stops_at_once perfectRuntime (sampleConfig 3 2) 0 1
              H0 H1 H2) as (st & w & st1 & w1 & _ & _ & Hrun & Hg & _ & Hn).
  exists st1, w1. auto.
Defined.

(** C3.  With [generations = 1] and [populationSize = 1] the run has
    the effects of one plain evaluation of the base prompt: the service
    is called once, for that evaluation, and no random value is drawn, so
    that no crossover and no mutation takes place; the result carries the
    base prompt and the fitness that this evaluation computed. *)
Theorem single_individual_run_is_plain_evaluation (rt : Runtime) (cfg : Config) :
  generations cfg = 1%nat -> populationSize cfg = 1%nat ->
  exists f w,
    calculatePromptFitness rt (Some (basePrompt cfg)) (fitnessFunction cfg) startWorld
    = Returns f w
    /\ log w = [(FitnessRequest (Some (basePrompt cfg)), service rt 0)]
    /\ draws w = 0%nat
    /\ exists r, evolvePrompt rt cfg startWorld = Returns r w
                 /\ best r = Some (basePrompt cfg)
                 /\ bestFitness r == f.
Proof.
  intros Hg Hn.
  rewrite calculatePromptFitness_eq. simpl.
  set (o := service rt 0).
  set (w := mkWorld [(FitnessRequest (Some (basePrompt cfg)), o)] 0).
  set (f := fitnessOfOutcome rt o).
  exists f, w. repeat split.
  pose (cb := mkIndividual (Some (basePrompt cfg)) f).
  pose (tr := track 0 cb (seedOf cfg) []).
  pose (st0 := initialState cfg [mkIndividual (Some (basePrompt cfg)) 0]).
  assert (Hev : evaluateAndTrack rt cfg st0 startWorld
                = Returns (mkLoop [cb] (fst tr) (snd tr) 0, Qle_bool 0.98 f) w).
  { unfold evaluateAndTrack, st0.
    cbn [population initialState gen bestEver improvementsLog].
    rewrite (bind_step _ _ _ _ _ (evaluateFitness_single rt _ _ _ startWorld)).
    cbn [hd_error]. unfold bind at 1. unfold ret at 1.
    change (mkIndividual (Some (basePrompt cfg)) 0) with (seedOf cfg).
    change (track 0 _ (seedOf cfg) []) with tr.
    destruct tr as [b i]. reflexivity. }
  assert (Hloop : runLoop rt cfg startWorld
                  = generationLoop rt cfg 1 st0 startWorld).
  { unfold runLoop, initializePopulation. rewrite Hg, Hn. reflexivity. }
  assert (Hrun : exists pop n,
             runLoop rt cfg startWorld
             = Returns (mkLoop pop (fst tr) (snd tr) n) w).
  { rewrite Hloop. simpl generationLoop.
    destruct (Qle_bool 0.98 f) eqn:E.
    - exists [cb], 0%nat.
      assert (Hit : iteration rt cfg st0 startWorld
                    = Returns (mkLoop [cb] (fst tr) (snd tr) 0, true) w).
      { unfold iteration. rewrite (bind_step _ _ _ _ _ Hev). reflexivity. }
      rewrite (bind_step _ _ _ _ _ Hit). reflexivity.
    - exists (elite [cb] 2), 1%nat.
      assert (Hit : iteration rt cfg st0 startWorld
                    = Returns (mkLoop (elite [cb] 2) (fst tr) (snd tr) 1, false) w).
      { unfold iteration. rewrite (bind_step _ _ _ _ _ Hev).
        unfold reproduce, evolvePopulation.
        cbn [population]. rewrite (makeBreeding_one cfg Hn). reflexivity. }
      rewrite (bind_step _ _ _ _ _ Hit). reflexivity. }
  assert (Hres : prompt (fst tr) = Some (basePrompt cfg) /\ fitness (fst tr) == f).
  { unfold tr, track. simpl fitness.
    destruct (Qltb 0 f) eqn:E; simpl; split; try reflexivity.
    apply Qltb_false in E.
    pose proof (fitnessOfOutcome_range rt o) as Hr. fold f in Hr. lra. }
  destruct Hrun as (pop & n & Hrun).
  rewrite (evolvePrompt_of_runLoop _ _ _ _ _ Hrun).
  eexists. split; [reflexivity | exact Hres].
Qed.

Lemma single_individual_run_is_plain_evaluation_witness :
  exists r w,
    evolvePrompt steadyRuntime (sampleConfig 1 1) startWorld = Returns r w
    /\ best r = Some (basePrompt (sampleConfig 1 1))
    /\ List.length (log w) = 1%nat
    /\ draws w = 0%nat.
Proof.
  destruct (single_individual_run_is_plain_evaluation
              steadyRuntime (sampleConfig 1 1) eq_refl eq_refl)
    as (f & w & _ & Hlog & Hd & r & Hrun & Hb & _).
  exists r, w. rewrite Hlog. auto.
Defined.

(** C7.  With [populationSize >= 2] the population has exactly
    [populationSize] members at the head of every pass, that is after
    the initialisation (pass 0) and after the reproduction step of every
    pass before, and also in the state in which the loop ends. *)
Theorem population_size_invariant (rt : Runtime) (cfg : Config) :
  (2 <= populationSize cfg)%nat ->
  (forall g st w,
      stateAt rt cfg g startWorld = Returns (Some st) w ->
      List.length (population st) = populationSize cfg)
  /\ (forall g st w st1 stop w1 st2 w2,
        stateAt rt cfg g startWorld = Returns (Some st) w ->
        evaluateAndTrack rt cfg st w = Returns (st1, stop) w1 ->
        reproduce rt cfg st1 w1 = Returns st2 w2 ->
        List.length (population st2) = populationSize cfg)
  /\ (forall st w,
        runLoop rt cfg startWorld = Returns st w ->
        List.length (population st) = populationSize cfg).
Proof.
  intro H2. repeat split.
  - intros g st w Hs.
    destruct (stateAt_LoopInv rt cfg g _ _ _ Hs) as [HI _].
    apply (inv_size _ _ _ HI H2).
  - intros g st w st1 stop w1 st2 w2 Hs He Hr.
    destruct (stateAt_LoopInv rt cfg g _ _ _ Hs) as [HI _].
    pose proof (evaluateAndTrack_LoopInv rt cfg _ _ _ _ _ HI He) as HI1.
    pose proof (reproduce_LoopInv rt cfg _ _ _ _ HI1 Hr) as HI2.
    apply (inv_size _ _ _ HI2 H2).
  - intros st w Hrun.
    apply (inv_size _ _ _ (runLoop_LoopInv rt cfg _ _ _ Hrun) H2).
Qed.

Lemma population_size_invariant_witness :
  exists st w,
    stateAt steadyRuntime (sampleConfig 3 4) 2 startWorld = Returns (Some st) w
    /\ List.length (population st) = 4%nat.
Proof.
  eexists _, _. split; [vm_compute; reflexivity |].
  refine (proj1 (population_size_invariant steadyRuntime (sampleConfig 3 4) _)
            2%nat _ _ _).
  - simpl. lia.
  - vm_compute; reflexivity.
Defined.

(** C10.  At the head of every pass, after the tracking step of every
    pass and when the loop has ended, the entries of the improvements
    log are strictly increasing in generation index and in fitness, and
    the last entry of a non-empty log carries [bestEver.fitness]. *)
Theorem improvements_log_consistent (rt : Runtime) (cfg : Config) :
  (forall g st w,
      stateAt rt cfg g startWorld = Returns (Some st) w ->
      improvementsConsistent st
      /\ forall st1 stop w1,
           evaluateAndTrack rt cfg st w = Returns (st1, stop) w1 ->
           improvementsConsistent st1)
  /\ (forall st w,
        runLoop rt cfg startWorld = Returns st w ->
        improvementsConsistent st).
Proof.
  split.
  - intros g st w Hs.
    destruct (stateAt_LoopInv rt cfg g _ _ _ Hs) as [HI _].
    split; [eapply LoopInv_consistent; exact HI |].
    intros st1 stop w1 He.
    eapply LoopInv_consistent.
    eapply evaluateAndTrack_LoopInv; eassumption.
  - intros st w Hrun.
    eapply LoopInv_consistent. eapply runLoop_LoopInv. exact Hrun.
Qed.

Lemma improvements_log_consistent_witness :
  exists st w,
    runLoop risingRuntime (sampleConfig 2 2) startWorld = Returns st w
    /\ List.length (improvementsLog st) = 2%nat
    /\ improvementsConsistent st.
Proof.
  eexists _, _. split; [vm_compute; reflexivity |].
  split; [reflexivity |].
  refine (proj2 (improvements_log_consistent risingRuntime (sampleConfig 2 2)) _ _ _).
  vm_compute; reflexivity.
Defined.

(* ================================================================= *)
(** ** Runs without improvement, and the last reproduction *)

(** C4.  The engine returns an [EvolutionResult] in every run, and in a
    run whose fitness evaluations all yielded 0 the improvements list is
    empty and the result is the base prompt with fitness 0 and
    [generationsRun = 0]. *)
Theorem all_zero_run_returns_seed (rt : Runtime) (cfg : Config) :
  validRandom rt ->
  exists r w,
    evolvePrompt rt cfg startWorld = Returns r w
    /\ (allFitnessZero rt (log w) ->
        r = mkResult (Some (basePrompt cfg)) 0 0 []).
Proof.
  intro Hv.
  destruct (runLoop_returns rt cfg startWorld Hv) as (st & w & Hrun).
  exists (resultOf st), w. split; [apply evolvePrompt_of_runLoop; exact Hrun |].
  intro Hz. unfold runLoop in Hrun. bind_inv Hrun.
  destruct (generationLoop_allZero rt cfg _ _ _ _ _ Hrun Hz eq_refl eq_refl)
    as [Hb Hi].
  unfold resultOf. rewrite Hb, Hi. reflexivity.
Qed.

Lemma all_zero_run_returns_seed_witness :
  exists w,
    evolvePrompt failingRuntime (sampleConfig 2 3) startWorld
    = Returns (mkResult (Some (basePrompt (sampleConfig 2 3))) 0 0 []) w.
Proof.
  destruct (all_zero_run_returns_seed failingRuntime (sampleConfig 2 3)
              (validRandom_half _ _)) as (r & w & Hrun & Hz).
  exists w. rewrite Hrun. f_equal. apply Hz.
  vm_compute in Hrun. inversion Hrun; subst.
  intros p o Hin. simpl in Hin.
  repeat (destruct Hin as [Hin | Hin]; [inversion Hin; subst; reflexivity |]).
  contradiction.
Defined.

(** C9.  In a run that never reaches the threshold, the last pass of
    the loop runs the reproduction step, from the world that the
    evaluation of that pass left to the final world, and the population
    it builds is not looked at again: a variant of the engine that leaves
    that step out, ending in the world before it, returns the same
    [EvolutionResult]. *)
Theorem last_reproduction_is_unobserved (rt : Runtime) (cfg : Config) :
  validRandom rt ->
  (forall g f, (g < generations cfg)%nat ->
               bestFitnessAt rt cfg g = Some f -> f < 0.98) ->
  exists r w w',
    evolvePrompt rt cfg startWorld = Returns r w
    /\ evolvePromptSkipLast rt cfg startWorld = Returns r w'
    /\ ((0 < generations cfg)%nat ->
        exists st w0 st1 st2,
          stateAt rt cfg (generations cfg - 1) startWorld = Returns (Some st) w0
          /\ evaluateAndTrack rt cfg st w0 = Returns (st1, false) w'
          /\ reproduce rt cfg st1 w' = Returns st2 w
          /\ runLoop rt cfg startWorld = Returns st2 w
          /\ runLoopSkipLast rt cfg startWorld = Returns st1 w').
Proof.
  intros Hv Hnever.
  assert (Hcase : generations cfg = 0%nat \/ exists k, generations cfg = S k)
    by (destruct (generations cfg); eauto).
  destruct Hcase as [Eg | [k Eg]].
  - destruct (initializePopulation_spec rt (basePrompt cfg) (populationSize cfg)
                startWorld) as (pop & w & Hinit & _).
    exists (resultOf (initialState cfg pop)), w, w. repeat split.
    + unfold evolvePrompt, runLoop. rewrite Eg. simpl.
      unfold bind at 1. unfold bind at 1. rewrite Hinit. reflexivity.
    + unfold evolvePromptSkipLast, runLoopSkipLast. rewrite Eg. simpl.
      unfold bind at 1. unfold bind at 1. rewrite Hinit. reflexivity.
    + intro H. lia.
  - assert (Hk : (k <= generations cfg)%nat) by lia.
    destruct (stateAt_progress rt cfg Hv Hnever k Hk) as (st & w0 & Hs).
    destruct (stateAt_progress rt cfg Hv Hnever (S k) ltac:(lia)) as (st2 & w & Hs2).
    apply stateAt_succ_inv in Hs2 as (st' & w0' & Hs' & Hit).
    rewrite Hs in Hs'. inversion Hs'; subst st' w0'. clear Hs'.
    pose proof (iteration_inv rt cfg _ _ _ _ _ Hit) as (st1 & w1 & He & Hr).
    assert (Hrun : runLoop rt cfg startWorld = Returns st2 w).
    { rewrite (runLoop_from_stateAt rt cfg k _ _ _ Hk Hs).
      replace (generations cfg - k)%nat with 1%nat by lia.
      simpl. rewrite (bind_step _ _ _ _ _ Hit). reflexivity. }
    assert (Hskip : runLoopSkipLast rt cfg startWorld = Returns st1 w1).
    { rewrite (runLoopSkipLast_from_stateAt rt cfg k _ _ _ ltac:(lia) Hs).
      replace (generations cfg - k)%nat with 1%nat by lia.
      simpl. rewrite (bind_step _ _ _ _ _ He). reflexivity. }
    exists (resultOf st2), w, w1. repeat split.
    + apply evolvePrompt_of_runLoop. exact Hrun.
    + unfold evolvePromptSkipLast. rewrite (bind_step _ _ _ _ _ Hskip).
      apply reproduce_inv in Hr as (_ & Hb & Hi & _).
      unfold ret, resultOf. rewrite Hb, Hi. reflexivity.
    + intros _. exists st, w0, st1, st2.
      replace (generations cfg - 1)%nat with k by lia. auto.
Qed.

Lemma last_reproduction_is_unobserved_witness :
  exists r w w',
    evolvePrompt steadyRuntime (sampleConfig 2 3) startWorld = Returns r w
    /\ evolvePromptSkipLast steadyRuntime (sampleConfig 2 3) startWorld
       = Returns r w'
    /\ (List.length (log w') < List.length (log w))%nat.
Proof.
  assert (Hnever : forall g f,
             (g < generations (sampleConfig 2 3))%nat ->
             bestFitnessAt steadyRuntime (sampleConfig 2 3) g = Some f ->
             f < 0.98).
  { intros g f Hg Hb. destruct g as [| [| g]].
    - vm_compute in Hb. inversion Hb; subst. reflexivity.
    - vm_compute in Hb. inversion Hb; subst. reflexivity.
    - simpl in Hg. lia. }
  destruct (last_reproduction_is_unobserved steadyRuntime (sampleConfig 2 3)
              (validRandom_half _ _) Hnever)
    as (r & w & w' & H1 & H2 & H3).
  exists r, w, w'. split; [exact H1 |]. split; [exact H2 |].
  destruct H3 as (st & w0 & st1 & st2 & _ & _ & _ & Hrun & Hskip);
    [simpl; lia |].
  vm_compute in Hrun. vm_compute in Hskip.
  inversion Hrun; subst. inversion Hskip; subst. simpl. lia.
Defined.

(* ================================================================= *)
(** ** The evaluation pass: order, stability, bookkeeping *)


Lemma insertByFitness_descending (x : Individual) (l : list Individual) :
  descending l -> descending (insertByFitness x l).
Proof.
  unfold descending. induction 1 as [| y l Hl IH Hy]; simpl.
  - constructor; constructor.
  - destruct (Qltb (fitness x) (fitness y)) eqn:E.
    + apply Qltb_true in E. constructor; [exact IH |].
      apply insertByFitness_Forall; [lra | exact Hy].
    + apply Qltb_false in E. constructor.
      * constructor; assumption.
      * constructor; [exact E |].
        eapply Forall_impl; [| exact Hy]. simpl. intros; lra.
Qed.

Lemma sortByFitness_descending (l : list Individual) :
  descending (sortByFitness l).
Proof.
  induction l as [| x l IH]; simpl.
  - constructor.
  - apply insertByFitness_descending. exact IH.
Qed.

Lemma insertByFitness_Permutation (x : Individual) (l : list Individual) :
  Permutation (insertByFitness x l) (x :: l).
Proof.
  induction l as [| y l IH]; simpl; [reflexivity |].
  destruct (Qltb (fitness x) (fitness y)); [| reflexivity].
  rewrite IH. apply perm_swap.
Qed.

Lemma sortByFitness_Permutation (l : list Individual) :
  Permutation (sortByFitness l) l.
Proof.
  induction l as [| x l IH]; simpl; [reflexivity |].
  rewrite insertByFitness_Permutation, IH. reflexivity.
Qed.


Lemma fitnessCalls_length rt k pop :
  List.length (fitnessCalls rt k pop) = List.length pop.
Proof.
  revert k. induction pop as [| i pop IH]; intro k; simpl; [| rewrite IH]; reflexivity.
Qed.

Lemma evaluateFitness_eq rt (t : jsstring) (pop : list Individual) w :
  evaluateFitness rt pop t w =
  Returns (sortByFitness (scoredPopulation rt (List.length (log w)) pop))
          (mkWorld (log w ++ fitnessCalls rt (List.length (log w)) pop) (draws w)).
Proof.
  unfold evaluateFitness.
  assert (H : forall pop w,
             mapM (fun individual =>
                     f <- calculatePromptFitness rt (prompt individual) t ;;
                     ret (mkIndividual (prompt individual) f)) pop w
             = Returns (scoredPopulation rt (List.length (log w)) pop)
                       (mkWorld (log w ++ fitnessCalls rt (List.length (log w)) pop)
                                (draws w))).
  { clear pop w. induction pop as [| x pop IH]; intro w; simpl.
    - unfold ret. rewrite app_nil_r. destruct w; reflexivity.
    - unfold bind at 1. unfold bind at 1. rewrite calculatePromptFitness_eq.
      cbv zeta. unfold ret at 1. unfold bind at 1. rewrite IH. unfold ret.
      simpl log. simpl draws. rewrite length_app. simpl List.length.
      rewrite Nat.add_1_r, <- app_assoc. reflexivity. }
  rewrite (bind_step _ _ _ _ _ (H pop w)). reflexivity.
Qed.

(** X1.  After [evaluateFitness] the population is in descending order
    of fitness, so that its first member has the highest fitness. *)
Theorem evaluateFitness_descending
    (rt : Runtime) (pop : list Individual) (t : jsstring)
    (w : World) (pop' : list Individual) (w' : World) :
  evaluateFitness rt pop t w = Returns pop' w' ->
  descending pop'
  /\ forall cb i, hd_error pop' = Some cb -> In i pop' -> fitness i <= fitness cb.
Proof.
  rewrite evaluateFitness_eq. intro H. inversion H; subst; clear H.
  pose proof (sortByFitness_descending
                (scoredPopulation rt (List.length (log w)) pop)) as Hd.
  split; [exact Hd |].
  intros cb i Hhd Hin.
  destruct (sortByFitness (scoredPopulation rt (List.length (log w)) pop))
    as [| c l]; [discriminate |].
  simpl in Hhd. inversion Hhd; subst. inversion Hd; subst.
  destruct Hin as [-> | Hin]; [lra |].
  rewrite Forall_forall in H2. apply H2. exact Hin.
Qed.

Lemma evaluateFitness_descending_witness :
  exists pop' w',
    evaluateFitness risingRuntime
      [mkIndividual (Some modestText) 0; mkIndividual None 0;
       mkIndividual (Some fullText) 0] (lit "quality")
      (mkWorld [] 0) = Returns pop' w'
    /\ descending pop'.
Proof.
  eexists _, _. split; [vm_compute; reflexivity |].
  apply (evaluateFitness_descending risingRuntime
           [mkIndividual (Some modestText) 0; mkIndividual None 0;
            mkIndividual (Some fullText) 0] (lit "quality")
           (mkWorld [] 0) _ _ ltac:(vm_compute; reflexivity)).
Defined.

(** X2.  [evaluateFitness] issues one fitness request per individual,
    in the order of the population, and draws no random value; its result
    is a rearrangement of the population in which every individual keeps
    its prompt and carries the score of the call issued for it. *)
Theorem evaluateFitness_bookkeeping
    (rt : Runtime) (pop : list Individual) (t : jsstring)
    (w : World) (pop' : list Individual) (w' : World) :
  evaluateFitness rt pop t w = Returns pop' w' ->
  Permutation pop' (scoredPopulation rt (List.length (log w)) pop)
  /\ Permutation (map prompt pop') (map prompt pop)
  /\ log w' = log w ++ fitnessCalls rt (List.length (log w)) pop
  /\ List.length (log w') = (List.length (log w) + List.length pop)%nat
  /\ draws w' = draws w.
Proof.
  rewrite evaluateFitness_eq. intro H. inversion H; subst; clear H. simpl.
  assert (Hp : forall k, map prompt (scoredPopulation rt k pop) = map prompt pop).
  { induction pop as [| i pop IH]; intro k; simpl; [| rewrite IH]; reflexivity. }
  repeat split.
  - apply sortByFitness_Permutation.
  - rewrite <- (Hp (List.length (log w))).
    apply Permutation_map. apply sortByFitness_Permutation.
  - rewrite length_app, fitnessCalls_length. reflexivity.
Qed.

Lemma evaluateFitness_bookkeeping_witness :
  exists pop' w',
    evaluateFitness risingRuntime
      [mkIndividual (Some modestText) 0; mkIndividual (Some fullText) 0]
      (lit "quality") startWorld = Returns pop' w'
    /\ List.length (log w') = 2%nat /\ draws w' = 0%nat.
Proof.
  eexists _, _. split; [vm_compute; reflexivity |].
  destruct (evaluateFitness_bookkeeping risingRuntime
              [mkIndividual (Some modestText) 0; mkIndividual (Some fullText) 0]
              (lit "quality") startWorld _ _ ltac:(vm_compute; reflexivity))
    as (_ & _ & _ & Hl & Hd).
  split; [exact Hl | exact Hd].
Defined.



(* ================================================================= *)
(** ** Tournament selection *)

Lemma tournamentLoop_eq rt (pop : list Individual) (n : nat) : forall t w,
  tournamentLoop rt n pop t w =
  Returns (t ++ map (drawn rt pop (draws w)) (seq 0 n))
          (mkWorld (log w) (draws w + n)).
Proof.
  induction n as [| n IH]; intros t w.
  - simpl. unfold ret. rewrite app_nil_r, Nat.add_0_r. destruct w; reflexivity.
  - cbn [tournamentLoop]. unfold bind at 1. unfold mathRandom at 1.
    rewrite IH. cbn [log draws]. f_equal.
    + rewrite <- app_assoc. f_equal. cbn [seq map app].
      unfold drawn at 2. rewrite Nat.add_0_r. f_equal.
      rewrite <- seq_shift, map_map. apply map_ext. intro k.
      unfold drawn. rewrite Nat.add_succ_r. reflexivity.
    + f_equal. lia.
Qed.

Lemma definedOf_In (t : list (option Individual)) (x : Individual) :
  In x (definedOf t) <-> In (Some x) t.
Proof.
  unfold definedOf. rewrite in_flat_map. split.
  - intros ([y |] & Hin & Hx); simpl in Hx; [| contradiction].
    destruct Hx as [-> | []]. exact Hin.
  - intro Hin. exists (Some x). split; [exact Hin | left; reflexivity].
Qed.

Lemma index_In {A} (xs : list A) (i : Z) (x : A) :
  index xs i = Some x -> In x xs.
Proof.
  unfold index. destruct (i <? 0)%Z; [discriminate |]. apply nth_error_In.
Qed.

Lemma sortSparse_head_best (t : list (option Individual)) (x : Individual) :
  hd_error (sortSparse t) = Some (Some x) ->
  In (Some x) t /\ forall j, In (Some j) t -> fitness j <= fitness x.
Proof.
  unfold sortSparse. intro H.
  pose proof (sortByFitness_descending (definedOf t)) as Hd.
  pose proof (sortByFitness_Permutation (definedOf t)) as Hp.
  destruct (sortByFitness (definedOf t)) as [| y s].
  - simpl in H.
    destruct (filter (fun o => match o with None => true | Some _ => false end) t)
      as [| o f] eqn:E; [discriminate |].
    simpl in H. inversion H; subst.
    assert (Hin : In (Some x) (Some x :: f)) by (left; reflexivity).
    rewrite <- E in Hin. apply filter_In in Hin as [_ Hf]. discriminate.
  - simpl in H. inversion H; subst. split.
    + apply definedOf_In. eapply Permutation_in; [exact Hp | left; reflexivity].
    + intros j Hj. apply definedOf_In in Hj.
      apply (Permutation_in _ (Permutation_sym Hp)) in Hj.
      inversion Hd; subst. destruct Hj as [-> | Hj]; [lra |].
      rewrite Forall_forall in H3. apply H3. exact Hj.
Qed.

(** X4.  With a non-empty population, [tournamentSelect] returns a
    member of the population: one of the individuals it drew, and one
    whose fitness no drawn individual exceeds.  It draws exactly
    [tournamentSize] random values and calls no service. *)
Theorem tournamentSelect_best_of_draws
    (rt : Runtime) (pop : list Individual) (n : nat) (w : World) :
  validRandom rt -> pop <> [] -> (0 < n)%nat ->
  exists i,
    tournamentSelect rt pop n w
    = Returns (Some i) (mkWorld (log w) (draws w + n))
    /\ In i pop
    /\ (exists k, (k < n)%nat /\ drawn rt pop (draws w) k = Some i)
    /\ (forall k j, (k < n)%nat -> drawn rt pop (draws w) k = Some j ->
                    fitness j <= fitness i).
Proof.
  intros Hv Hne Hn. unfold tournamentSelect.
  rewrite (bind_step _ _ _ _ _ (tournamentLoop_eq rt pop n [] w)).
  cbn [app]. unfold ret.
  set (t := map (drawn rt pop (draws w)) (seq 0 n)).
  assert (Hdef : Forall isDefined t).
  { apply Forall_forall. intros o Ho. apply in_map_iff in Ho as (k & <- & _).
    destruct (Hv (draws w + k)%nat). apply index_in_range; assumption. }
  assert (Ht : t <> []).
  { intro E. apply (f_equal (@List.length _)) in E.
    unfold t in E. rewrite length_map, length_seq in E. simpl in E. lia. }
  destruct (sortSparse_head t Ht Hdef) as [x Hx].
  rewrite Hx. exists x.
  destruct (sortSparse_head_best t x Hx) as [Hin Hmax].
  split; [reflexivity |].
  apply in_map_iff in Hin as (k & Hk & Hseq). apply in_seq in Hseq.
  repeat split.
  - eapply index_In. exact Hk.
  - exists k. split; [lia | exact Hk].
  - intros k' j Hk' Hj. apply Hmax. rewrite <- Hj.
    apply in_map. apply in_seq. lia.
Qed.

Lemma tournamentSelect_best_of_draws_witness :
  exists i,
    tournamentSelect steadyRuntime
      [mkIndividual (Some modestText) 0.3; mkIndividual (Some fullText) 0.7;
       mkIndividual None 0.1] 3 startWorld
    = Returns (Some i) (mkWorld [] 3)
    /\ fitness i == 0.7.
Proof.
  destruct (tournamentSelect_best_of_draws steadyRuntime
              [mkIndividual (Some modestText) 0.3; mkIndividual (Some fullText) 0.7;
               mkIndividual None 0.1] 3 startWorld
              (validRandom_half _ _) ltac:(discriminate) ltac:(lia))
    as (i & Hrun & _).
  exists i. split; [exact Hrun |].
  vm_compute in Hrun. inversion Hrun; subst. reflexivity.
Defined.

(* ================================================================= *)
(** ** Seeding the population *)

Lemma initializeLoop_eq rt (base : jsstring) (n : nat) : forall pop w,
  initializeLoop rt n base pop w =
  Returns (pop ++ seedVariants rt base (List.length (log w)) n)
          (mkWorld (log w ++ seedCalls rt base (List.length (log w)) (draws w) n)
                   (draws w + n)).
Proof.
  induction n as [| n IH]; intros pop w.
  - simpl. unfold ret. rewrite !app_nil_r, Nat.add_0_r. destruct w; reflexivity.
  - cbn [initializeLoop].
    rewrite (bind_step _ _ _ _ _ (mutatePrompt_eq rt (Some base) 0.3 w)).
    rewrite IH. cbn [log draws seedVariants seedCalls].
    rewrite length_app. cbn [List.length]. rewrite Nat.add_1_r.
    rewrite <- !app_assoc. cbn [app].
    replace (S (draws w) + n)%nat with (draws w + S n)%nat by lia.
    destruct (service rt (List.length (log w))); reflexivity.
Qed.

Lemma seedVariants_length rt base k n :
  List.length (seedVariants rt base k n) = n.
Proof.
  revert k. induction n as [| n IH]; intro k; simpl; [| rewrite IH]; reflexivity.
Qed.

Lemma seedCalls_length rt base k d n :
  List.length (seedCalls rt base k d n) = n.
Proof.
  revert k d. induction n as [| n IH]; intros k d; simpl; [| rewrite IH]; reflexivity.
Qed.

Lemma seedVariants_nth rt base (n : nat) : forall k j,
  (j < n)%nat ->
  nth_error (seedVariants rt base k n) j
  = Some (mkIndividual (match service rt (k + j) with
                        | Some text => Some text
                        | None => Some base
                        end) 0).
Proof.
  induction n as [| n IH]; intros k j Hj; [lia |].
  destruct j as [| j]; simpl.
  - rewrite Nat.add_0_r. reflexivity.
  - rewrite IH by lia. rewrite Nat.add_succ_r. reflexivity.
Qed.

Lemma seedVariants_Forall rt base (n : nat) : forall k,
  Forall (fun i => fitness i = 0 /\ exists text, prompt i = Some text)
         (seedVariants rt base k n).
Proof.
  induction n as [| n IH]; intro k; simpl; constructor; [| apply IH].
  split; [reflexivity |]. simpl. destruct (service rt k); eauto.
Qed.

Lemma seedCalls_Forall rt base (n : nat) : forall k d,
  Forall (fun e => exists op, fst e = MutationRequest (Some base) 0.3 op)
         (seedCalls rt base k d n).
Proof.
  induction n as [| n IH]; intros k d; simpl; constructor; [| apply IH].
  simpl. eauto.
Qed.

(** X5.  [initializePopulation] returns a population of
    [max(1, size)] individuals, all with fitness 0 and a prompt: the
    first is the base prompt, and member [k + 1] is the response of the
    [k]-th of its calls, or the base prompt when that call fails.  It
    makes [size - 1] calls, all of them mutation requests on the base
    prompt with strength 0.3, and draws [size - 1] random values. *)
Theorem initializePopulation_seeds
    (rt : Runtime) (base : jsstring) (size : nat) (w : World) :
  exists pop w' calls,
    initializePopulation rt base size w = Returns pop w'
    /\ hd_error pop = Some (mkIndividual (Some base) 0)
    /\ List.length pop = Nat.max 1 size
    /\ Forall (fun i => fitness i = 0 /\ exists text, prompt i = Some text) pop
    /\ (forall k, (k < size - 1)%nat ->
          nth_error pop (S k)
          = Some (mkIndividual
                    (match service rt (List.length (log w) + k) with
                     | Some text => Some text
                     | None => Some base
                     end) 0))
    /\ log w' = log w ++ calls
    /\ List.length calls = (size - 1)%nat
    /\ Forall (fun e => exists op, fst e = MutationRequest (Some base) 0.3 op) calls
    /\ draws w' = (draws w + (size - 1))%nat.
Proof.
  unfold initializePopulation. rewrite initializeLoop_eq.
  eexists _, _, _. split; [reflexivity |]. cbn [log draws app hd_error].
  repeat split.
  - cbn [List.length]. rewrite seedVariants_length. lia.
  - constructor; [| apply seedVariants_Forall].
    split; [reflexivity | simpl; eauto].
  - intros k Hk. cbn [nth_error]. apply seedVariants_nth. exact Hk.
  - apply seedCalls_length.
  - apply seedCalls_Forall.
Qed.

(* ================================================================= *)
(** ** Reproduction: elitism and offspring *)

Lemma elite_nil (count : nat) : elite [] count = repeat emptyObject count.
Proof.
  unfold elite. generalize 0%nat. induction count as [| c IH]; intro s; simpl.
  - reflexivity.
  - rewrite IH. destruct s; reflexivity.
Qed.

Lemma elite_cons (x : Individual) (pop : list Individual) (count : nat) :
  elite (x :: pop) (S count) = x :: elite pop count.
Proof.
  unfold elite. cbn [seq map nth_error spread]. f_equal.
  rewrite <- seq_shift, map_map. reflexivity.
Qed.

Lemma elite_eq (pop : list Individual) : forall count,
  elite pop count
  = firstn count pop ++ repeat emptyObject (count - List.length pop).
Proof.
  induction pop as [| x pop IH]; intro count.
  - rewrite elite_nil, firstn_nil, Nat.sub_0_r. reflexivity.
  - destruct count as [| c]; [reflexivity |].
    rewrite elite_cons, IH. reflexivity.
Qed.

Lemma offspringLoop_appends rt pop b (n : nat) : forall newPop w res w',
  offspringLoop rt n pop b newPop w = Returns res w' ->
  exists children,
    res = newPop ++ children
    /\ List.length children = n
    /\ Forall (fun i => fitness i = 0) children.
Proof.
  induction n as [| n IH]; intros newPop w res w' H; simpl in H.
  - inversion H; subst. exists []. rewrite app_nil_r. auto.
  - do 6 bind_inv H.
    apply IH in H as (children & -> & Hlen & Hf).
    exists (mkIndividual a4 0 :: children).
    rewrite <- app_assoc. simpl. repeat split; auto.
Qed.

(** X6.  When the population has at least [eliteCount] members,
    [evolvePopulation] returns a population of the same size that starts
    with the first [eliteCount] members of the old one, unchanged in
    prompt and fitness; all the members after them have fitness 0. *)
Theorem evolvePopulation_keeps_elite
    (rt : Runtime) (pop : list Individual) (b : Breeding)
    (w : World) (pop' : list Individual) (w' : World) :
  (eliteCount b <= List.length pop)%nat ->
  evolvePopulation rt pop b w = Returns pop' w' ->
  List.length pop' = List.length pop
  /\ firstn (eliteCount b) pop' = firstn (eliteCount b) pop
  /\ Forall (fun i => fitness i = 0) (skipn (eliteCount b) pop').
Proof.
  intros Hle H. unfold evolvePopulation in H.
  rewrite elite_length in H.
  apply offspringLoop_appends in H as (children & -> & Hlen & Hf).
  rewrite elite_eq.
  replace (eliteCount b - List.length pop)%nat with 0%nat by lia.
  cbn [repeat]. rewrite app_nil_r.
  assert (Hfl : List.length (firstn (eliteCount b) pop) = eliteCount b)
    by (apply firstn_length_le; exact Hle).
  repeat split.
  - rewrite length_app, Hfl, Hlen. lia.
  - rewrite firstn_app, Hfl, Nat.sub_diag. cbn [firstn].
    rewrite app_nil_r, firstn_firstn, Nat.min_id. reflexivity.
  - rewrite skipn_app, Hfl, Nat.sub_diag. cbn [skipn].
    rewrite skipn_all2 by (rewrite Hfl; lia). exact Hf.
Qed.

Lemma evolvePopulation_keeps_elite_witness :
  exists pop' w',
    evolvePopulation steadyRuntime
      [mkIndividual (Some fullText) 0.9; mkIndividual (Some modestText) 0.5;
       mkIndividual None 0.2] (mkBreeding 0.1 0.7 2) startWorld
    = Returns pop' w'
    /\ firstn 2 pop'
       = [mkIndividual (Some fullText) 0.9; mkIndividual (Some modestText) 0.5].
Proof.
  eexists _, _. split; [vm_compute; reflexivity |].
  apply (evolvePopulation_keeps_elite steadyRuntime
           [mkIndividual (Some fullText) 0.9; mkIndividual (Some modestText) 0.5;
            mkIndividual None 0.2] (mkBreeding 0.1 0.7 2) startWorld _ _
           ltac:(simpl; lia) ltac:(vm_compute; reflexivity)).
Defined.

(** X7.  When the population has no more than [eliteCount] members,
    [evolvePopulation] makes no call and draws no random value, and
    returns [eliteCount] individuals: the population, followed by objects
    without a prompt for the missing places. *)
Theorem evolvePopulation_small_population
    (rt : Runtime) (pop : list Individual) (b : Breeding) (w : World) :
  (List.length pop <= eliteCount b)%nat ->
  evolvePopulation rt pop b w
  = Returns (pop ++ repeat emptyObject (eliteCount b - List.length pop)) w.
Proof.
  intro Hle. unfold evolvePopulation.
  rewrite elite_length, elite_eq.
  replace (List.length pop - eliteCount b)%nat with 0%nat by lia.
  rewrite firstn_all2 by exact Hle. reflexivity.
Qed.

Lemma evolvePopulation_small_population_witness :
  evolvePopulation steadyRuntime [mkIndividual (Some modestText) 0.4]
    (makeBreeding (sampleConfig 2 1)) startWorld
  = Returns [mkIndividual (Some modestText) 0.4; emptyObject] startWorld.
Proof.
  apply (evolvePopulation_small_population steadyRuntime
           [mkIndividual (Some modestText) 0.4]
           (makeBreeding (sampleConfig 2 1)) startWorld).
  vm_compute. lia.
Defined.

Lemma firstn_In {A} (n : nat) : forall (l : list A) (x : A),
  In x (firstn n l) -> In x l.
Proof.
  induction n as [| n IH]; intros l x H; [contradiction |].
  destruct l as [| y l]; [contradiction |].
  destruct H as [-> | H]; [left; reflexivity | right; apply IH; exact H].
Qed.

Lemma tournamentSelect_member rt (pop : list Individual) (n : nat) w i w' :
  tournamentSelect rt pop n w = Returns (Some i) w' ->
  In i pop /\ log w' = log w.
Proof.
  unfold tournamentSelect.
  rewrite (bind_step _ _ _ _ _ (tournamentLoop_eq rt pop n [] w)).
  cbn [app]. unfold ret. intro H. inversion H as [[Hhd Hw]]. clear H.
  split; [| reflexivity].
  destruct (hd_error (sortSparse (map (drawn rt pop (draws w)) (seq 0 n))))
    as [[x |] |] eqn:E; try discriminate.
  inversion Hhd; subst x.
  apply sortSparse_head_best in E as [Hin _].
  apply in_map_iff in Hin as (k & Hk & _). eapply index_In. exact Hk.
Qed.

Lemma promptOf_inv (x : option Individual) w p w' :
  promptOf x w = Returns p w' -> exists i, x = Some i /\ p = prompt i /\ w' = w.
Proof.
  destruct x as [i |]; simpl; intro H; [| discriminate].
  inversion H; subst. eauto.
Qed.

Lemma answered_extends (w w' : World) p :
  extends w w' -> answered (log w) p -> answered (log w') p.
Proof.
  intros He (req & text & Hin & Hg & Hp). exists req, text.
  split; [eapply extends_In; eassumption | auto].
Qed.

(** Where the prompts of the offspring come from. *)
Lemma offspringLoop_origin rt pop b (n : nat) : forall newPop w res w',
  offspringLoop rt n pop b newPop w = Returns res w' ->
  exists children,
    res = newPop ++ children
    /\ Forall (fun c => (exists j, In j pop /\ prompt c = prompt j)
                        \/ answered (log w') (prompt c)) children.
Proof.
  induction n as [| n IH]; intros newPop w res w' H; simpl in H.
  - inversion H; subst. exists []. rewrite app_nil_r. auto.
  - apply bind_Returns in H as (parent1 & w1 & Hsel1 & H).
    apply bind_Returns in H as (parent2 & w2 & Hsel2 & H).
    apply bind_Returns in H as (r1 & w3 & Hr1 & H).
    apply bind_Returns in H as (child & w4 & Hchild & H).
    apply bind_Returns in H as (r2 & w5 & Hr2 & H).
    apply bind_Returns in H as (child' & w6 & Hmut & H).
    pose proof (logMonotone_offspringLoop rt pop b n _ _ _ _ H) as Hrest.
    apply IH in H as (children & -> & Hc).
    exists (mkIndividual child' 0 :: children).
    rewrite <- app_assoc. split; [reflexivity |].
    constructor; [| exact Hc]. cbn [prompt].
    assert (Horigin : (exists j, In j pop /\ child = prompt j)
                      \/ answered (log w4) child).
    { destruct (Qltb r1 (bCrossoverRate b)).
      - apply bind_Returns in Hchild as (p1 & wa & Hp1 & Hchild).
        apply bind_Returns in Hchild as (p2 & wb & Hp2 & Hchild).
        apply promptOf_inv in Hp1 as (i1 & E1 & -> & ->).
        apply promptOf_inv in Hp2 as (i2 & E2 & -> & ->).
        subst parent1 parent2.
        apply tournamentSelect_member in Hsel1 as [Hi1 _].
        apply tournamentSelect_member in Hsel2 as [Hi2 _].
        rewrite crossoverPrompts_eq in Hchild. cbv zeta in Hchild.
        destruct (service rt (List.length (log w3))) as [text |] eqn:Es.
        + inversion Hchild; subst. right.
          exists (CrossoverRequest (prompt i1) (prompt i2)), text.
          repeat split. simpl. apply in_or_app. right. left. reflexivity.
        + inversion Hchild; subst. left.
          destruct (Qltb 0.5 (random rt (draws w3))); eauto.
      - apply promptOf_inv in Hchild as (i1 & E1 & -> & ->). subst parent1.
        apply tournamentSelect_member in Hsel1 as [Hi1 _]. eauto. }
    assert (H45 : extends w4 w5).
    { eapply logMonotone_mathRandom. exact Hr2. }
    destruct (Qltb r2 (bMutationRate b)).
    + rewrite mutatePrompt_eq in Hmut. cbv zeta in Hmut.
      destruct (service rt (List.length (log w5))) as [text |] eqn:Es.
      * inversion Hmut; subst. right.
        apply (answered_extends _ _ _ Hrest).
        exists (MutationRequest child 0.2 (Qfloor (random rt (draws w5) * 7))), text.
        repeat split. simpl. apply in_or_app. right. left. reflexivity.
      * inversion Hmut; subst. destruct Horigin as [Hp | Ha]; [left; exact Hp |].
        right. apply (answered_extends w4); [| exact Ha].
        eapply extends_trans; [exact H45 |].
        eapply extends_trans; [| exact Hrest]. eexists. reflexivity.
    + inversion Hmut; subst. destruct Horigin as [Hp | Ha]; [left; exact Hp |].
      right. apply (answered_extends w4); [| exact Ha].
      eapply extends_trans; eassumption.
Qed.



(* ================================================================= *)
(** ** The result of a run *)

Lemma track_best_ge g cb be imps :
  fitness cb <= fitness (fst (track g cb be imps))
  /\ fitness be <= fitness (fst (track g cb be imps)).
Proof.
  unfold track. destruct (Qltb (fitness be) (fitness cb)) eqn:E; simpl.
  - apply Qltb_true in E. split; lra.
  - apply Qltb_false in E. split; lra.
Qed.


Section ResultFacts.

Variable rt : Runtime.
Variable cfg : Config.

Lemma evaluateAndTrack_best_ge st w st1 stop w1 :
  evaluateAndTrack rt cfg st w = Returns (st1, stop) w1 ->
  fitness (bestEver st) <= fitness (bestEver st1)
  /\ forall cb, hd_error (population st1) = Some cb ->
                fitness cb <= fitness (bestEver st1).
Proof.
  intro H. apply evaluateAndTrack_inv in H as (cb & _ & Hhd & _ & Htr & _).
  pose proof (track_best_ge (gen st) cb (bestEver st) (improvementsLog st)) as [H1 H2].
  rewrite <- Htr in H1, H2. simpl in H1, H2. split; [exact H2 |].
  intros cb' Hhd'. rewrite Hhd in Hhd'. inversion Hhd'; subst. exact H1.
Qed.

Lemma generationLoop_best_monotone n : forall st w stf wf,
  generationLoop rt cfg n st w = Returns stf wf ->
  fitness (bestEver st) <= fitness (bestEver stf).
Proof.
  induction n as [| n IH]; intros st w stf wf H; simpl in H.
  - inversion H; subst. lra.
  - bind_inv H. destruct a as [st' stop].
    pose proof (iteration_inv rt cfg _ _ _ _ _ Hrun) as Hit.
    destruct stop.
    + inversion H; subst.
      apply evaluateAndTrack_best_ge in Hit as [Hm _]. exact Hm.
    + destruct Hit as (stm & wm & He & Hr).
      apply evaluateAndTrack_best_ge in He as [Hm _].
      apply reproduce_inv in Hr as (_ & Hb & _).
      apply IH in H. rewrite Hb in H. lra.
Qed.

(** A property of [bestEver] and [improvements] that the tracking step
    keeps holds when the loop has ended. *)
Lemma generationLoop_tracked
    (P : Individual -> list GenerationRecord -> Prop) :
  (forall g cb be imps,
      TrackInv (seedOf cfg) g be imps -> 0 <= fitness cb <= 1 -> P be imps ->
      P (fst (track g cb be imps)) (snd (track g cb be imps))) ->
  forall n st w stf wf,
    LoopInv cfg (gen st) st ->
    P (bestEver st) (improvementsLog st) ->
    generationLoop rt cfg n st w = Returns stf wf ->
    P (bestEver stf) (improvementsLog stf).
Proof.
  intros Hstep. induction n as [| n IH]; intros st w stf wf HI HP H; simpl in H.
  - inversion H; subst. exact HP.
  - bind_inv H. destruct a as [st' stop].
    pose proof (iteration_LoopInv rt cfg _ _ _ _ _ HI Hrun) as HI'.
    pose proof (iteration_inv rt cfg _ _ _ _ _ Hrun) as Hit.
    assert (Hmid : forall st1 stop1 w1,
               evaluateAndTrack rt cfg st w = Returns (st1, stop1) w1 ->
               P (bestEver st1) (improvementsLog st1)).
    { intros stx stopx wx He.
      apply evaluateAndTrack_inv in He as (cb & _ & _ & Hsc & Htr & _).
      pose proof (Hstep (gen st) cb _ _ (inv_track _ _ _ HI)
                    (scored_range rt _ _ Hsc) HP) as HP1.
      rewrite <- Htr in HP1. exact HP1. }
    destruct stop.
    + inversion H; subst. eapply Hmid. exact Hit.
    + destruct Hit as (stm & wm & He & Hr).
      pose proof (Hmid _ _ _ He) as HP1.
      apply reproduce_inv in Hr as (_ & Hb & Hi & _).
      eapply IH; [apply HI' | | exact H]. rewrite Hb, Hi. exact HP1.
Qed.

Lemma runLoop_tracked (P : Individual -> list GenerationRecord -> Prop) :
  P (seedOf cfg) [] ->
  (forall g cb be imps,
      TrackInv (seedOf cfg) g be imps -> 0 <= fitness cb <= 1 -> P be imps ->
      P (fst (track g cb be imps)) (snd (track g cb be imps))) ->
  forall w0 st w,
    runLoop rt cfg w0 = Returns st w -> P (bestEver st) (improvementsLog st).
Proof.
  intros H0 Hstep w0 st w H. unfold runLoop in H. bind_inv H.
  eapply (generationLoop_tracked P Hstep); [| | exact H].
  - eapply initialState_LoopInv. exact Hrun.
  - exact H0.
Qed.

Lemma generationLoop_log_length n : forall st w stf wf,
  LoopInv cfg (gen st) st ->
  generationLoop rt cfg n st w = Returns stf wf ->
  (List.length (improvementsLog stf) <= gen st + n)%nat.
Proof.
  induction n as [| n IH]; intros st w stf wf HI H; simpl in H.
  - inversion H; subst.
    pose proof (imps_length _ _ _ _ (inv_track _ _ _ HI)). lia.
  - bind_inv H. destruct a as [st' stop].
    pose proof (iteration_LoopInv rt cfg _ _ _ _ _ HI Hrun) as HI'.
    destruct stop.
    + inversion H; subst. destruct HI' as [HI' Hg].
      pose proof (imps_length _ _ _ _ (inv_track _ _ _ HI')). lia.
    + destruct HI' as [HI' Hg]. apply IH in H; [| exact HI']. lia.
Qed.

Lemma evolvePrompt_inv w0 r w :
  evolvePrompt rt cfg w0 = Returns r w ->
  exists st, runLoop rt cfg w0 = Returns st w /\ r = resultOf st.
Proof.
  unfold evolvePrompt. intro H. bind_inv H. inversion H; subst. eauto.
Qed.

End ResultFacts.

(** X9.  [bestEver.fitness] never decreases from one pass to the
    next, and the fitness that [evolvePrompt] returns is at least the
    best fitness of every pass of the run. *)
Theorem returned_fitness_dominates_every_pass (rt : Runtime) (cfg : Config) :
  (forall g st w st' w',
      stateAt rt cfg g startWorld = Returns (Some st) w ->
      stateAt rt cfg (S g) startWorld = Returns (Some st') w' ->
      fitness (bestEver st) <= fitness (bestEver st'))
  /\ (forall g f r w,
        (g < generations cfg)%nat ->
        bestFitnessAt rt cfg g = Some f ->
        evolvePrompt rt cfg startWorld = Returns r w ->
        f <= bestFitness r).
Proof.
  split.
  - intros g st w st' w' Hs Hs'.
    apply stateAt_succ_inv in Hs' as (st0 & w0 & Hs0 & Hit).
    rewrite Hs in Hs0. inversion Hs0; subst st0 w0.
    apply iteration_inv in Hit as (st1 & w1 & He & Hr).
    apply evaluateAndTrack_best_ge in He as [Hm _].
    apply reproduce_inv in Hr as (_ & Hb & _). rewrite Hb. exact Hm.
  - intros g f r w Hg Hb Hrun.
    apply evolvePrompt_inv in Hrun as (stf & Hrun & ->). simpl.
    unfold bestFitnessAt in Hb.
    destruct (stateAt rt cfg g startWorld) as [[st |] w0 | w0] eqn:Hs;
      try discriminate.
    rewrite (runLoop_from_stateAt rt cfg g _ _ _ (Nat.lt_le_incl _ _ Hg) Hs) in Hrun.
    replace (generations cfg - g)%nat with (S (generations cfg - S g)) in Hrun by lia.
    simpl in Hrun. bind_inv Hrun. destruct a as [st' stop].
    pose proof (iteration_inv rt cfg _ _ _ _ _ Hrun0) as Hit.
    assert (Hmid : forall st1 stop1 w1,
               evaluateAndTrack rt cfg st w0 = Returns (st1, stop1) w1 ->
               f <= fitness (bestEver st1)).
    { intros stx stopx wx He.
      pose proof (evaluateAndTrack_best_ge rt cfg _ _ _ _ _ He) as [_ Hc].
      apply evaluateAndTrack_inv in He as (cb & Hev & Hhd & _).
      rewrite Hev, Hhd in Hb. simpl in Hb. inversion Hb; subst.
      apply Hc. exact Hhd. }
    destruct stop.
    + inversion Hrun; subst. eapply Hmid. exact Hit.
    + destruct Hit as (stm & wm & He & Hr).
      pose proof (Hmid _ _ _ He) as H1.
      apply reproduce_inv in Hr as (_ & Hbe & _).
      apply generationLoop_best_monotone in Hrun. rewrite Hbe in Hrun. lra.
Qed.

Lemma returned_fitness_dominates_every_pass_witness :
  exists f r w,
    bestFitnessAt risingRuntime (sampleConfig 2 2) 0 = Some f
    /\ evolvePrompt risingRuntime (sampleConfig 2 2) startWorld = Returns r w
    /\ f <= bestFitness r.
Proof.
  eexists _, _, _.
  split; [vm_compute; reflexivity |].
  split; [vm_compute; reflexivity |].
  refine (proj2 (returned_fitness_dominates_every_pass
                   risingRuntime (sampleConfig 2 2)) 0%nat _ _ _ _ _ _).
  - simpl. lia.
  - vm_compute; reflexivity.
  - vm_compute; reflexivity.
Defined.



(** X11.  [generationsRun] counts the recorded improvements and never
    exceeds [generations]. *)
Theorem generationsRun_bounded
    (rt : Runtime) (cfg : Config) (r : EvolutionResult) (w : World) :
  evolvePrompt rt cfg startWorld = Returns r w ->
  generationsRun r = List.length (improvements r)
  /\ (generationsRun r <= generations cfg)%nat.
Proof.
  intro H. apply evolvePrompt_inv in H as (st & Hrun & ->). simpl.
  split; [reflexivity |].
  unfold runLoop in Hrun. bind_inv Hrun.
  apply generationLoop_log_length in Hrun.
  - simpl in Hrun. exact Hrun.
  - eapply initialState_LoopInv. exact Hrun0.
Qed.

Lemma generationsRun_bounded_witness :
  exists r w,
    evolvePrompt steadyRuntime (sampleConfig 3 2) startWorld = Returns r w
    /\ generationsRun r = 1%nat
    /\ (generationsRun r <= 3)%nat.
Proof.
  eexists _, _. split; [vm_compute; reflexivity |].
  split; [reflexivity |].
  apply (generationsRun_bounded steadyRuntime (sampleConfig 3 2) _ _
           ltac:(vm_compute; reflexivity)).
Defined.

(** X12.  The returned fitness lies between 0 and 1.  Without a
    recorded improvement the result is the base prompt with fitness 0;
    with one, the fitness is positive and is that of the last record. *)
Theorem returned_fitness_range
    (rt : Runtime) (cfg : Config) (r : EvolutionResult) (w : World) :
  evolvePrompt rt cfg startWorld = Returns r w ->
  0 <= bestFitness r /\ bestFitness r <= 1
  /\ (improvements r = [] ->
      best r = Some (basePrompt cfg) /\ bestFitness r = 0)
  /\ (forall l rec, improvements r = l ++ [rec] ->
        recFitness rec = bestFitness r /\ 0 < bestFitness r).
Proof.
  intro H. apply evolvePrompt_inv in H as (st & Hrun & ->). simpl.
  pose proof (runLoop_LoopInv rt cfg _ _ _ Hrun) as [HT _ _].
  split; [apply (best_nonneg _ _ _ _ HT) |].
  split.
  - apply (runLoop_tracked rt cfg (fun be _ => fitness be <= 1)) in Hrun;
      [exact Hrun | simpl; lra |].
    intros g cb be imps _ Hcb HP. unfold track.
    destruct (Qltb (fitness be) (fitness cb)); simpl; [lra | exact HP].
  - split.
    + intro E. rewrite (best_seed _ _ _ _ HT E). split; reflexivity.
    + intros l rec E. destruct (last_is_best _ _ _ _ HT l rec E) as [H1 H2].
      split; [exact H1 | rewrite <- H1; exact H2].
Qed.

Lemma returned_fitness_range_witness :
  exists r w,
    evolvePrompt perfectRuntime (sampleConfig 3 2) startWorld = Returns r w
    /\ 0 <= bestFitness r /\ bestFitness r <= 1.
Proof.
  eexists _, _. split; [vm_compute; reflexivity |].
  destruct (returned_fitness_range perfectRuntime (sampleConfig 3 2) _ _
              ltac:(vm_compute; reflexivity)) as (H0 & H1 & _).
  split; [exact H0 | exact H1].
Defined.

(* ================================================================= *)
(** ** Where the returned prompt comes from *)

Lemma known_extends (base : jsstring) (w w' : World) p :
  extends w w' -> known base (log w) p -> known base (log w') p.
Proof.
  intros He [Hb | Ha]; [left; exact Hb | right].
  eapply answered_extends; eassumption.
Qed.

Lemma seedVariants_known rt (base : jsstring) (n : nat) : forall k d l0,
  Forall (fun i => known base (l0 ++ seedCalls rt base k d n) (prompt i))
         (seedVariants rt base k n).
Proof.
  induction n as [| n IH]; intros k d l0; simpl; constructor.
  - simpl. destruct (service rt k) as [text |] eqn:E; [right | left; reflexivity].
    exists (MutationRequest (Some base) 0.3 (Qfloor (random rt d * 7))), text.
    repeat split. apply in_or_app. right. left. reflexivity.
  - specialize (IH (S k) (S d)
                  (l0 ++ [(MutationRequest (Some base) 0.3 (Qfloor (random rt d * 7)),
                           service rt k)])).
    rewrite <- app_assoc in IH. exact IH.
Qed.

Section OriginFacts.

Variable rt : Runtime.
Variable cfg : Config.
Hypothesis size_ok : (2 <= populationSize cfg)%nat.

Lemma promptsKnown_start w0 pop w :
  initializePopulation rt (basePrompt cfg) (populationSize cfg) w0 = Returns pop w ->
  promptsKnown cfg (initialState cfg pop) w.
Proof.
  unfold initializePopulation. rewrite initializeLoop_eq.
  intro H. inversion H; subst; clear H. split; simpl.
  - constructor; [left; reflexivity |].
    rewrite Forall_map. apply seedVariants_known.
  - left. reflexivity.
Qed.

Lemma promptsKnown_evaluateAndTrack st w st1 stop w1 :
  promptsKnown cfg st w ->
  evaluateAndTrack rt cfg st w = Returns (st1, stop) w1 ->
  promptsKnown cfg st1 w1.
Proof.
  intros [Hpop Hbest] He.
  pose proof (logMonotone_evaluateAndTrack rt cfg st _ _ _ He) as Hext.
  apply evaluateAndTrack_inv in He as (cb & Hev & Hhd & _ & Htr & _).
  apply evaluateFitness_bookkeeping in Hev as (_ & Hperm & _).
  assert (Hpop1 : Forall (known (basePrompt cfg) (log w1))
                         (map prompt (population st1))).
  { eapply Permutation_Forall; [apply Permutation_sym; exact Hperm |].
    eapply Forall_impl; [| exact Hpop].
    intros p Hp. eapply known_extends; eassumption. }
  split; [exact Hpop1 |].
  pose proof (f_equal fst Htr) as Hb. simpl in Hb. rewrite Hb.
  unfold track. destruct (Qltb (fitness (bestEver st)) (fitness cb)); simpl.
  - rewrite Forall_forall in Hpop1. apply Hpop1.
    apply in_map. destruct (population st1); [discriminate |].
    simpl in Hhd. inversion Hhd; subst. left. reflexivity.
  - eapply known_extends; eassumption.
Qed.

Lemma promptsKnown_reproduce st w st' w' :
  LoopInv cfg (S (gen st)) st ->
  promptsKnown cfg st w ->
  reproduce rt cfg st w = Returns st' w' ->
  promptsKnown cfg st' w'.
Proof.
  intros HI [Hpop Hbest] Hr.
  pose proof (logMonotone_reproduce rt cfg st _ _ _ Hr) as Hext.
  apply reproduce_inv in Hr as (Hev & Hb & _).
  assert (Hpop' : Forall (known (basePrompt cfg) (log w'))
                         (map prompt (population st))).
  { eapply Forall_impl; [| exact Hpop].
    intros p Hp. eapply known_extends; eassumption. }
  split; [| rewrite Hb; eapply known_extends; eassumption].
  unfold evolvePopulation in Hev.
  apply offspringLoop_origin in Hev as (children & -> & Hc).
  rewrite map_app. apply Forall_app. split.
  - rewrite elite_eq.
    pose proof (eliteCount_makeBreeding cfg size_ok) as Hle.
    rewrite <- (inv_size _ _ _ HI size_ok) in Hle.
    replace (eliteCount (makeBreeding cfg) - List.length (population st))%nat
      with 0%nat by lia.
    cbn [repeat]. rewrite app_nil_r.
    rewrite Forall_map. apply Forall_forall. intros i Hi.
    rewrite Forall_map, Forall_forall in Hpop'. apply Hpop'.
    eapply firstn_In. exact Hi.
  - rewrite Forall_map. eapply Forall_impl; [| exact Hc].
    intros c [(j & Hj & Hp) | Ha]; [| right; exact Ha].
    rewrite Hp. rewrite Forall_map, Forall_forall in Hpop'. apply Hpop'. exact Hj.
Qed.

Lemma promptsKnown_generationLoop n : forall st w stf wf,
  LoopInv cfg (gen st) st ->
  promptsKnown cfg st w ->
  generationLoop rt cfg n st w = Returns stf wf ->
  promptsKnown cfg stf wf.
Proof.
  induction n as [| n IH]; intros st w stf wf HI HK H; simpl in H.
  - inversion H; subst. exact HK.
  - bind_inv H. destruct a as [st' stop].
    pose proof (iteration_LoopInv rt cfg _ _ _ _ _ HI Hrun) as HI'.
    pose proof (iteration_inv rt cfg _ _ _ _ _ Hrun) as Hit.
    destruct stop.
    + inversion H; subst. eapply promptsKnown_evaluateAndTrack; eassumption.
    + destruct Hit as (stm & wm & He & Hr).
      pose proof (promptsKnown_evaluateAndTrack _ _ _ _ _ HK He) as HK1.
      pose proof (evaluateAndTrack_LoopInv rt cfg _ _ _ _ _ HI He) as HI1.
      pose proof (promptsKnown_reproduce _ _ _ _ HI1 HK1 Hr) as HK2.
      eapply IH; [apply HI' | exact HK2 | exact H].
Qed.

End OriginFacts.

(** X13.  With [populationSize >= 2] the prompt that [evolvePrompt]
    returns is a string, and the engine did not make it up: it is the
    base prompt or the text that a mutation or crossover call of this
    run returned. *)
Theorem returned_prompt_is_known
    (rt : Runtime) (cfg : Config) (r : EvolutionResult) (w : World) :
  (2 <= populationSize cfg)%nat ->
  evolvePrompt rt cfg startWorld = Returns r w ->
  known (basePrompt cfg) (log w) (best r)
  /\ exists text, best r = Some text.
Proof.
  intros Hsize H. apply evolvePrompt_inv in H as (st & Hrun & ->). simpl.
  unfold runLoop in Hrun. bind_inv Hrun.
  assert (HK : promptsKnown cfg st w).
  { eapply (promptsKnown_generationLoop rt cfg Hsize); [| | exact Hrun].
    - eapply initialState_LoopInv. exact Hrun0.
    - eapply promptsKnown_start. exact Hrun0. }
  destruct HK as [_ Hb]. split; [exact Hb |].
  destruct Hb as [Hb | (req & text & _ & _ & Hb)]; rewrite Hb; eauto.
Qed.

Lemma returned_prompt_is_known_witness :
  exists r w,
    evolvePrompt steadyRuntime (sampleConfig 2 3) startWorld = Returns r w
    /\ exists text, best r = Some text.
Proof.
  eexists _, _. split; [vm_compute; reflexivity |].
  apply (returned_prompt_is_known steadyRuntime (sampleConfig 2 3) _ _
           ltac:(simpl; lia) ltac:(vm_compute; reflexivity)).
Defined.

(* ================================================================= *)
(** ** What it takes to reach the convergence threshold *)

Lemma lengthBonus_le (result : jsstring) : lengthBonus result <= 0.2.
Proof.
  unfold lengthBonus. apply Q.max_lub; [lra |].
  assert (H : 0 <= lengthRatio result).
  { unfold lengthRatio, idealLength, Qdiv.
    apply Qmult_le_0_compat; [apply Qabs_nonneg | discriminate]. }
  lra.
Qed.

(** X14.  A fitness of at least 0.98, which ends the loop early, is
    only returned for a response that names at least three of the five
    methodological terms. *)
Theorem threshold_needs_three_method_terms
    (rt : Runtime) (p : option jsstring) (fitnessType : jsstring)
    (w : World) (f : Q) (w' : World) :
  calculatePromptFitness rt p fitnessType w = Returns f w' ->
  0.98 <= f ->
  exists result,
    service rt (List.length (log w)) = Some result
    /\ (3 <= methodScore (toLowerCase rt) result)%nat.
Proof.
  rewrite calculatePromptFitness_eq. cbv zeta. intro H. inversion H; subst; clear H.
  destruct (service rt (List.length (log w))) as [result |]; simpl;
    [| intro Hf; lra].
  intro Hf. exists result. split; [reflexivity |].
  assert (Hraw : 0.98 <= rawFitness (toLowerCase rt) result).
  { eapply Qle_trans; [exact Hf | apply Q.le_min_l]. }
  unfold rawFitness in Hraw.
  pose proof (codingBonus_range result) as [_ Hc].
  pose proof (lengthBonus_le result) as Hl.
  assert (Hm : 0.18 <= methodBonus (toLowerCase rt) result).
  { destruct (hasStructure result), (hasReasoning result); lra. }
  unfold methodBonus in Hm.
  destruct (methodScore (toLowerCase rt) result) as [| [| [| n]]]; try lia;
    exfalso; revert Hm; vm_compute; intro Hm; apply Hm; reflexivity.
Qed.

Lemma threshold_needs_three_method_terms_witness :
  exists result,
    service perfectRuntime 0 = Some result
    /\ (3 <= methodScore asciiLower result)%nat.
Proof.
  apply (threshold_needs_three_method_terms perfectRuntime (Some modestText)
           (lit "quality") startWorld 1
           (mkWorld [(FitnessRequest (Some modestText), Some fullText)] 0)).
  - vm_compute; reflexivity.
  - vm_compute; discriminate.
Defined.

(* ================================================================= *)
(** ** The way to the engine *)










(* ================================================================= *)
(** ** The number of service calls of a run *)

Lemma offspringLoop_calls rt pop b (n : nat) : forall newPop w res w',
  offspringLoop rt n pop b newPop w = Returns res w' ->
  (List.length (log w') <= List.length (log w) + 2 * n)%nat.
Proof.
  induction n as [| n IH]; intros newPop w res w' H; simpl in H.
  - inversion H; subst. lia.
  - apply bind_Returns in H as (parent1 & w1 & Hsel1 & H).
    apply bind_Returns in H as (parent2 & w2 & Hsel2 & H).
    apply bind_Returns in H as (r1 & w3 & Hr1 & H).
    apply bind_Returns in H as (child & w4 & Hchild & H).
    apply bind_Returns in H as (r2 & w5 & Hr2 & H).
    apply bind_Returns in H as (child' & w6 & Hmut & H).
    assert (H1 : log w1 = log w).
    { destruct (tournamentSelect_spec rt pop 3 w) as (r & w'' & Hr & Hl & _).
      rewrite Hsel1 in Hr. inversion Hr; subst. exact Hl. }
    assert (H2 : log w2 = log w1).
    { destruct (tournamentSelect_spec rt pop 3 w1) as (r & w'' & Hr & Hl & _).
      rewrite Hsel2 in Hr. inversion Hr; subst. exact Hl. }
    assert (H3 : log w3 = log w2) by (inversion Hr1; reflexivity).
    assert (H4 : (List.length (log w4) <= List.length (log w3) + 1)%nat).
    { destruct (Qltb r1 (bCrossoverRate b)).
      - apply bind_Returns in Hchild as (p1 & wa & Hp1 & Hchild).
        apply bind_Returns in Hchild as (p2 & wb & Hp2 & Hchild).
        apply promptOf_inv in Hp1 as (i1 & _ & _ & ->).
        apply promptOf_inv in Hp2 as (i2 & _ & _ & ->).
        rewrite crossoverPrompts_eq in Hchild. cbv zeta in Hchild.
        destruct (service rt (List.length (log w3))); inversion Hchild; subst;
          simpl; rewrite length_app; simpl; lia.
      - apply promptOf_inv in Hchild as (i1 & _ & _ & ->). lia. }
    assert (H5 : log w5 = log w4) by (inversion Hr2; reflexivity).
    assert (H6 : (List.length (log w6) <= List.length (log w5) + 1)%nat).
    { destruct (Qltb r2 (bMutationRate b)).
      - rewrite mutatePrompt_eq in Hmut. cbv zeta in Hmut.
        inversion Hmut; subst. simpl. rewrite length_app. simpl. lia.
      - inversion Hmut; subst. lia. }
    apply IH in H. rewrite H5, H3, H2, H1 in *. lia.
Qed.

(** The most calls that one pass of the generation loop makes: one
    evaluation per individual, and a crossover and a mutation per
    offspring. *)
Lemma generationLoop_calls rt cfg (n : nat) : forall st w stf wf,
  (2 <= populationSize cfg)%nat ->
  LoopInv cfg (gen st) st ->
  generationLoop rt cfg n st w = Returns stf wf ->
  (List.length (log wf)
   <= List.length (log w)
      + n * (populationSize cfg
             + 2 * (populationSize cfg - eliteCount (makeBreeding cfg))))%nat.
Proof.
  intros st w stf wf Hsize. revert st w stf wf.
  induction n as [| n IH]; intros st w stf wf HI H; simpl in H.
  - inversion H; subst. lia.
  - bind_inv H. destruct a as [st' stop].
    pose proof (iteration_LoopInv rt cfg _ _ _ _ _ HI Hrun) as HI'.
    pose proof (iteration_inv rt cfg _ _ _ _ _ Hrun) as Hit.
    assert (Hmid : forall stx stopx wx,
               evaluateAndTrack rt cfg st w = Returns (stx, stopx) wx ->
               List.length (log wx)
               = (List.length (log w) + populationSize cfg)%nat
               /\ List.length (population stx) = populationSize cfg).
    { intros stx stopx wx He.
      apply evaluateAndTrack_inv in He as (cb & Hev & _ & _ & _ & _ & _ & Hlen).
      apply evaluateFitness_bookkeeping in Hev as (_ & _ & _ & Hl & _).
      rewrite (inv_size _ _ _ HI Hsize) in Hl, Hlen. auto. }
    destruct stop.
    + inversion H; subst. destruct (Hmid _ _ _ Hit) as [Hl _].
      rewrite Nat.mul_succ_l. lia.
    + destruct Hit as (stm & wm & He & Hr).
      destruct (Hmid _ _ _ He) as [Hl Hp].
      apply reproduce_inv in Hr as (Hev & _).
      unfold evolvePopulation in Hev. apply offspringLoop_calls in Hev.
      rewrite elite_length, Hp in Hev.
      destruct HI' as [HI' _]. apply IH in H; [| exact HI'].
      rewrite Nat.mul_succ_l. lia.
Qed.

(** X18.  With [populationSize >= 2], a run calls the service at most
    [populationSize - 1] times for the initial population and, in each
    of its [generations] passes, at most once per individual for the
    evaluation and twice per offspring for crossover and mutation. *)
Theorem service_calls_bounded
    (rt : Runtime) (cfg : Config) (r : EvolutionResult) (w : World) :
  (2 <= populationSize cfg)%nat ->
  evolvePrompt rt cfg startWorld = Returns r w ->
  (List.length (log w)
   <= (populationSize cfg - 1)
      + generations cfg
        * (populationSize cfg
           + 2 * (populationSize cfg - eliteCount (makeBreeding cfg))))%nat.
Proof.
  intros Hsize H. apply evolvePrompt_inv in H as (st & Hrun & _).
  unfold runLoop in Hrun. bind_inv Hrun.
  pose proof (initialState_LoopInv rt cfg _ _ _ Hrun0) as HI.
  apply (generationLoop_calls rt cfg _ (initialState cfg a) _ _ _ Hsize HI) in Hrun.
  destruct (initializePopulation_seeds rt (basePrompt cfg) (populationSize cfg)
              startWorld)
    as (pop & w' & calls & Hinit & _ & _ & _ & _ & Hlog & Hlen & _).
  rewrite Hrun0 in Hinit. inversion Hinit; subst.
  rewrite Hlog, length_app, Hlen in Hrun.
  change (List.length (log startWorld)) with 0%nat in Hrun. lia.
Qed.

Lemma service_calls_bounded_witness :
  exists r w,
    evolvePrompt steadyRuntime (sampleConfig 2 3) startWorld = Returns r w
    /\ (List.length (log w) <= 2 + 2 * (3 + 2 * 1))%nat.
Proof.
  eexists _, _. split; [vm_compute; reflexivity |].
  apply (service_calls_bounded steadyRuntime (sampleConfig 2 3) _ _
           ltac:(simpl; lia) ltac:(vm_compute; reflexivity)).
Defined.

(* ================================================================= *)
(** ** Counting the coding vocabulary *)

Lemma canonicalize_asciiLower (c : Z) :
  canonicalize (if ((65 <=? c) && (c <=? 90))%Z then (c + 32)%Z else c)
  = canonicalize c.
Proof.
  unfold canonicalize.
  destruct ((65 <=? c) && (c <=? 90))%Z eqn:E.
  - apply andb_true_iff in E as [E1 E2].
    apply Z.leb_le in E1, E2.
    replace ((97 <=? c + 32) && (c + 32 <=? 122))%Z with true
      by (symmetry; apply andb_true_iff; split; apply Z.leb_le; lia).
    replace ((97 <=? c) && (c <=? 122))%Z with false
      by (symmetry; apply andb_false_iff; left; apply Z.leb_gt; lia).
    lia.
  - reflexivity.
Qed.

Lemma startsWithCI_asciiLower (p : jsstring) : forall s,
  startsWithCI (asciiLower s) p = startsWithCI s p.
Proof.
  induction p as [| a p IH]; intros [| b s]; try reflexivity.
  simpl. rewrite canonicalize_asciiLower. f_equal. apply IH.
Qed.

Lemma matchAt_asciiLower (alts : list jsstring) (s : jsstring) :
  matchAt alts (asciiLower s) = matchAt alts s.
Proof.
  induction alts as [| p alts IH]; simpl; [reflexivity |].
  rewrite startsWithCI_asciiLower, IH. reflexivity.
Qed.

Lemma matchCount_asciiLower (alts : list jsstring) (s : jsstring) : forall skip,
  matchCount alts skip (asciiLower s) = matchCount alts skip s.
Proof.
  induction s as [| c s IH]; intro skip; [reflexivity |].
  change (asciiLower (c :: s))
    with ((if ((65 <=? c) && (c <=? 90))%Z then (c + 32)%Z else c) :: asciiLower s).
  cbn [matchCount]. destruct skip as [| k]; [| apply IH].
  change ((if ((65 <=? c) && (c <=? 90))%Z then (c + 32)%Z else c) :: asciiLower s)
    with (asciiLower (c :: s)).
  rewrite matchAt_asciiLower.
  destruct (matchAt alts (c :: s)); rewrite IH; reflexivity.
Qed.

(** X19.  The coding vocabulary is counted without regard to the case
    of ASCII letters: lower-casing them in a response changes neither
    the count nor the bonus. *)
Theorem codingCount_ignores_case (result : jsstring) :
  codingCount (asciiLower result) = codingCount result
  /\ codingBonus (asciiLower result) = codingBonus result.
Proof.
  assert (H : codingCount (asciiLower result) = codingCount result)
    by apply matchCount_asciiLower.
  split; [exact H |]. unfold codingBonus. rewrite H. reflexivity.
Qed.
